(** * Benji utilities: token bucket, completion driver, hash helpers

    A shallow embedding of [src/benji/utils.py] (and of its ancestor
    [src/backy2/utils.py], which shares the token bucket and the hash
    helpers) together with the properties stated about them.  The
    rbd-diff hints, the process title and the size formatter of the same
    file follow.

    Layout: the first part holds the definitions, one module per source
    unit; the second part holds the theorems, one module per unit. *)

From Stdlib Require Import QArith Qminmax Qabs Lqa Ascii.
From Stdlib Require Import Qround.
From stdpp Require Import gmap strings list fin_maps pretty.

Close Scope Q_scope.

(* ===================================================================== *)
(** * Part 1: definitions                                                 *)
(* ===================================================================== *)

(** ** Python exceptions

    The exception classes that the modelled code raises, catches or lets
    through.  [is_Exception] tells whether an instance is matched by an
    [except Exception] clause: everything but the classes that derive from
    [BaseException] alone ([SystemExit], [KeyboardInterrupt],
    [GeneratorExit]). *)

Inductive exn : Type :=
| AttributeError
| ConfigurationError
| NotImplementedError
| RuntimeError
| ValueError
| TypeError
| SyntaxError
| CancelledError
| TimeoutError
| OtherException (name : string)
| SystemExit
| KeyboardInterrupt
| GeneratorExit.

Definition is_Exception (e : exn) : bool :=
  match e with
  | SystemExit | KeyboardInterrupt | GeneratorExit => false
  | _ => true
  end.

(** A computation that either raises or returns. *)
Inductive result (A : Type) : Type :=
| Raise (e : exn)
| Return (a : A).
Arguments Raise {A} e.
Arguments Return {A} a.

#[global] Instance result_ret : MRet result := fun A a => Return a.
#[global] Instance result_bind : MBind result := fun A B k m =>
  match m with
  | Raise e => Raise e
  | Return a => k a
  end.

(** A computation on a mutable store [S]: it returns or raises, and in
    both cases leaves the store as its side effects made it (an exception
    does not undo what was mutated before it). *)
Definition py (S A : Type) : Type := S -> S * result A.

#[global] Instance py_ret {S} : MRet (py S) := fun A a σ => (σ, Return a).
#[global] Instance py_bind {S} : MBind (py S) := fun A B k m σ =>
  match m σ with
  | (σ', Return a) => k a σ'
  | (σ', Raise e) => (σ', Raise e)
  end.

Definition raise {S A} (e : exn) : py S A := fun σ => (σ, Raise e).
Definition lift {S A} (r : result A) : py S A := fun σ => (σ, r).

(* --------------------------------------------------------------------- *)
(** ** class TokenBucket                                                   *)
(* --------------------------------------------------------------------- *)

(** Python's numbers ([int] rates and amounts, [float] clock readings and
    token counts) are modelled by exact rationals: every [int] and every
    finite [float] is a rational, and the accounting below is read as
    exact arithmetic.  The clock reading [time()] is an explicit argument
    [now]; the lock serialises the calls, so a bucket shared between
    threads sees its calls one after the other, which is what a list of
    calls models. *)

Module TokenBucket.
Local Open Scope Q_scope.

Record bucket : Type := mkBucket { tokens : Q; rate : Q; last : Q }.

Definition with_tokens (t : Q) (self : bucket) : bucket :=
  {| tokens := t; rate := rate self; last := last self |}.
Definition with_rate (r : Q) (self : bucket) : bucket :=
  {| tokens := tokens self; rate := r; last := last self |}.
Definition with_last (l : Q) (self : bucket) : bucket :=
  {| tokens := tokens self; rate := rate self; last := l |}.

(** Truth value of a number: [not x] holds exactly when [x] is zero. *)
Definition truthy (x : Q) : bool := negb (Qeq_bool x 0).

Definition Qgt_bool (x y : Q) : bool := negb (Qle_bool x y).

(** [__init__]: [now] is the clock reading taken by the constructor. *)
Definition init (now : Q) : bucket :=
  {| tokens := 0; rate := 0; last := now |}.

(** [set_rate(rate)]. *)
Definition set_rate (r : Q) (self : bucket) : bucket :=
  let self := with_rate r self in
  with_tokens (rate self) self.

(** [consume(tokens)]: the argument is called [amount] here, the field
    keeps the name [tokens].  Returns the recommended nap and the bucket
    as the call leaves it. *)
Definition consume (self : bucket) (now amount : Q) : Q * bucket :=
  if negb (truthy (rate self)) then (0, self)
  else
    let lapse := now - last self in
    let self := with_last now self in
    let self := with_tokens (tokens self + lapse * rate self) self in
    let self :=
      if Qgt_bool (tokens self) (rate self)
      then with_tokens (rate self) self
      else self in
    let self := with_tokens (tokens self - amount) self in
    if Qle_bool 0 (tokens self) then (0, self)
    else (- tokens self / rate self, self).

(** The accounting of [consume] as the design document words it, for a
    bucket whose rate is not zero: stamp, replenish, clamp from above,
    debit, then report. *)
Definition consume_spec (self : bucket) (now amount : Q) : Q * bucket :=
  let elapsed := now - last self in
  let replenished := tokens self + elapsed * rate self in
  let clamped := Qmin replenished (rate self) in
  let debited := clamped - amount in
  (if Qle_bool 0 debited then 0 else - debited / rate self,
   {| tokens := debited; rate := rate self; last := now |}).

(** Calls on one bucket, in the order the lock lets them in. *)
Inductive call : Type :=
| SetRate (r : Q)
| Consume (now amount : Q).

Definition exec (c : call) (b : bucket) : bucket :=
  match c with
  | SetRate r => set_rate r b
  | Consume now amount => snd (consume b now amount)
  end.

(** The bucket after each call of a sequence. *)
Fixpoint states (cs : list call) (b : bucket) : list bucket :=
  match cs with
  | [] => []
  | c :: cs' => let b' := exec c b in b' :: states cs' b'
  end.

Definition call_ok (c : call) : Prop :=
  match c with
  | SetRate r => 0 <= r
  | Consume _ amount => 0 <= amount
  end.

(** Successive [consume] calls that all read the same clock value. *)
Fixpoint consume_all (b : bucket) (now : Q) (amounts : list Q)
  : list Q * bucket :=
  match amounts with
  | [] => ([], b)
  | a :: amounts' =>
      let '(w, b') := consume b now a in
      let '(ws, b'') := consume_all b' now amounts' in
      (w :: ws, b'')
  end.

Definition Qsum (l : list Q) : Q := fold_right Qplus 0 l.

(** The deficit formula of the design document:
    [max(0, -(rate - total)) / rate]. *)
Definition deficit_wait (r total : Q) : Q := Qmax 0 (- (r - total)) / r.

(** The capacity bound: the bucket holds at most one time unit of tokens. *)
Definition within_capacity (b : bucket) : Prop := tokens b <= rate b.

End TokenBucket.

(* --------------------------------------------------------------------- *)
(** ** future_results_as_completed                                         *)
(* --------------------------------------------------------------------- *)

Module Driver.
Section Driver.

(** What a task returns. *)
Context {value : Type}.

(** How the call behind a future ended. *)
Inductive outcome : Type :=
| Returned (v : value)
| Raised (e : exn).

(** The states in which [concurrent.futures.as_completed] hands a future
    over: it yields a future once it is [FINISHED] or
    [CANCELLED_AND_NOTIFIED], and these states are final.  The worker
    stores whatever the call raised, [BaseException]s included, in the
    future. *)
Inductive fstate : Type :=
| CANCELLED_AND_NOTIFIED
| FINISHED (o : outcome).

(** A future object: its identity and the state it completed in. *)
Record Future : Type := mkFuture { fut_id : nat; fut_state : fstate }.

(** [Future.cancelled()]. *)
Definition cancelled (f : Future) : bool :=
  match fut_state f with
  | CANCELLED_AND_NOTIFIED => true
  | FINISHED _ => false
  end.

(** [Future.result()] on a completed future. *)
Definition future_result (f : Future) : result value :=
  match fut_state f with
  | CANCELLED_AND_NOTIFIED => Raise CancelledError
  | FINISHED (Returned v) => Return v
  | FINISHED (Raised e) => Raise e
  end.

(** [threading.Semaphore] ([sem_initial = None]) and
    [threading.BoundedSemaphore] ([sem_initial = Some n]). *)
Record Semaphore : Type :=
  mkSemaphore { sem_value : nat; sem_initial : option nat }.

Definition sem_incr (s : Semaphore) : Semaphore :=
  {| sem_value := sem_value s + 1; sem_initial := sem_initial s |}.

(** [semaphore.release()]. *)
Definition release (s : Semaphore) : result Semaphore :=
  match sem_initial s with
  | Some initial =>
      if decide (initial < sem_value s + 1) then Raise ValueError
      else Return (sem_incr s)
  | None => Return (sem_incr s)
  end.

(** [list.remove(x)] on a list of futures: futures compare by identity;
    the first occurrence goes, and [ValueError] is raised when there is
    none. *)
Fixpoint list_remove (x : Future) (l : list Future) : result (list Future) :=
  match l with
  | [] => Raise ValueError
  | y :: l' =>
      if decide (fut_id y = fut_id x) then Return l'
      else l'' ← list_remove x l'; Return (y :: l'')
  end.

(** What the generator can yield: a task's value or an exception object. *)
Inductive pyobject : Type :=
| Obj (v : value)
| ExnObj (e : exn).

(** The objects the generator mutates: the caller's list [futures] and the
    optional [semaphore]. *)
Record driver : Type :=
  mkDriver { futures : list Future; semaphore : option Semaphore }.

Definition futures_remove (future : Future) : py driver unit := fun st =>
  match list_remove future (futures st) with
  | Return l => ({| futures := l; semaphore := semaphore st |}, Return tt)
  | Raise e => (st, Raise e)
  end.

Definition semaphore_release (sem : Semaphore) : py driver unit := fun st =>
  match release sem with
  | Return sem' => ({| futures := futures st; semaphore := Some sem' |},
                    Return tt)
  | Raise e => (st, Raise e)
  end.

(** The body of the [for] loop, for the future [as_completed] has just
    handed over; its value is what the generator yields. *)
Definition loop_body (future : Future) : py driver pyobject :=
  _ ← futures_remove future;
  _ ← (fun st =>
         match semaphore st with
         | Some sem =>
             if negb (cancelled future) then semaphore_release sem st
             else (st, Return tt)
         | None => (st, Return tt)
         end);
  match future_result future with
  | Return result => mret (Obj result)
  | Raise exception =>
      if is_Exception exception then mret (ExnObj exception)
      else raise exception
  end.

(** The generator, consumed to its end.  (The warning logged for old
    interpreters and the [del future] that drops the local reference
    change nothing that is yielded, raised or stored, and have no
    counterpart here.)  [completed] is the order in which
    [as_completed] hands the futures over; [times_out] tells whether it
    then raises [TimeoutError] (the timeout elapsed with futures
    outstanding) instead of ending.  The result is the store as the
    generator leaves it, the objects yielded, and the exception that ended
    the iteration, if one did. *)
Fixpoint future_results_as_completed
  (completed : list Future) (times_out : bool) (st : driver)
  : driver * list pyobject * option exn :=
  match completed with
  | [] => (st, [], if times_out then Some TimeoutError else None)
  | future :: completed' =>
      match loop_body future st with
      | (st', Return result) =>
          let '(st'', results, e) :=
            future_results_as_completed completed' times_out st' in
          (st'', result :: results, e)
      | (st', Raise e) => (st', [], Some e)
      end
  end.

(** [futures.remove(future)] finds the future. *)
Definition registered (f : Future) (st : driver) : Prop :=
  fut_id f ∈ fut_id <$> futures st.

(** The semaphore, when there is one, accepts one more release. *)
Definition releasable (st : driver) : Prop :=
  match semaphore st with
  | Some sem =>
      match sem_initial sem with
      | Some initial => sem_value sem + 1 ≤ initial
      | None => True
      end
  | None => True
  end.

(** What one iteration yields or raises for a future, once the list and
    the semaphore have been dealt with. *)
Definition delivery (f : Future) : result pyobject :=
  match fut_state f with
  | CANCELLED_AND_NOTIFIED => Return (ExnObj CancelledError)
  | FINISHED (Returned v) => Return (Obj v)
  | FINISHED (Raised e) =>
      if is_Exception e then Return (ExnObj e) else Raise e
  end.

(** The store after an iteration that got past [futures.remove], where
    [l] is the list without the future, and [semaphore.release]. *)
Definition settled (f : Future) (l : list Future) (st : driver) : driver :=
  {| futures := l;
     semaphore := if cancelled f then semaphore st
                  else sem_incr <$> semaphore st |}.

End Driver.

Arguments outcome : clear implicits.
Arguments fstate : clear implicits.
Arguments Future : clear implicits.
Arguments pyobject : clear implicits.
Arguments driver : clear implicits.

(** Handles and a permit pool for the examples: a task that exits the
    interpreter, one that returns 7, a cancelled one, one whose I/O
    failed; a bounded semaphore of two permits. *)
Definition exiting : Future nat :=
  {| fut_id := 0; fut_state := FINISHED (Raised SystemExit) |}.
Definition returning : Future nat :=
  {| fut_id := 1; fut_state := FINISHED (Returned 7) |}.
Definition cancelled_handle : Future nat :=
  {| fut_id := 2; fut_state := CANCELLED_AND_NOTIFIED |}.
Definition failing : Future nat :=
  {| fut_id := 3; fut_state := FINISHED (Raised (OtherException "IOError")) |}.
Definition pool (value : nat) : option Semaphore :=
  Some {| sem_value := value; sem_initial := Some 2 |}.

End Driver.

(* --------------------------------------------------------------------- *)
(** ** parametrized_hash_function, data_hexdigest                          *)
(* --------------------------------------------------------------------- *)

Module HashUtils.

(** The interface of a [hashlib] hash object, on its state: [update] folds
    data in, [digest] and [hexdigest] read the state out (they raise for
    the variable-length algorithms, which want a length). *)
Class HashObject (H : Type) : Type := {
  h_update : H -> list Byte.byte -> H;
  h_digest : H -> result (list Byte.byte);
  h_hexdigest : H -> result string
}.

(** An attribute of the [hashlib] module: [None], or something that can be
    called with keyword arguments (a call of what is not callable, or with
    arguments it does not take, raises). *)
Inductive attr (pyval H : Type) : Type :=
| AttrNone
| AttrCallable (call : gmap string pyval -> result H).
Arguments AttrNone {pyval H}.
Arguments AttrCallable {pyval H} call.

(** [s.split(sep)] for a separator of one character. *)
Fixpoint split (sep : ascii) (s : string) : list string :=
  match s with
  | EmptyString => [EmptyString]
  | String c s' =>
      if decide (c = sep) then EmptyString :: split sep s'
      else match split sep s' with
           | w :: ws => String c w :: ws
           | [] => [String c EmptyString]
           end
  end.

(** [s.split(sep, 1)]: at most one cut. *)
Fixpoint split1 (sep : ascii) (s : string) : list string :=
  match s with
  | EmptyString => [EmptyString]
  | String c s' =>
      if decide (c = sep) then [EmptyString; s']
      else match split1 sep s' with
           | w :: ws => String c w :: ws
           | [] => [String c EmptyString]
           end
  end.

(** [a, b = l]: unpacking into two names. *)
Definition unpack2 {A} (l : list A) : result (A * A) :=
  match l with
  | [a; b] => Return (a, b)
  | _ => Raise ValueError
  end.

Section HashUtils.

Context {pyval H : Type} `{HashObject H}.

(** [ast.literal_eval]. *)
Variable literal_eval : string -> result pyval.

(** The namespace of the [hashlib] module: the attribute of a name, if
    the module has one. *)
Variable hashlib : string -> option (attr pyval H).

(** [Block.MAXIMUM_CHECKSUM_LENGTH] ([MetaBackend.MAXIMUM_CHECKSUM_LENGTH]
    in backy2), a constant declared outside the modelled files. *)
Variable MAXIMUM_CHECKSUM_LENGTH : nat.

(** [getattr(hashlib, name)], without a default. *)
Definition getattr (name : string) : result (attr pyval H) :=
  match hashlib name with
  | Some a => Return a
  | None => Raise AttributeError
  end.

(** The [try]/[except ValueError] that splits the name from the
    arguments. *)
Definition split_config (config_hash_function : string)
  : string * option string :=
  match unpack2 (split1 ","%char config_hash_function) with
  | Return (hash_name, hash_args) => (hash_name, Some hash_args)
  | Raise _ => (config_hash_function, None)
  end.

(** [dict((k, literal_eval(v)) for k, v in
          (pair.split('=') for pair in hash_args.split(',')))]. *)
Fixpoint parse_kwargs (pairs : list string) (kwargs : gmap string pyval)
  : result (gmap string pyval) :=
  match pairs with
  | [] => Return kwargs
  | pair_ :: pairs' =>
      kv ← unpack2 (split "="%char pair_);
      x ← literal_eval kv.2;
      parse_kwargs pairs' (<[kv.1 := x]> kwargs)
  end.

(** The function, with the two exception classes it raises as
    parameters: benji and backy2 differ in nothing else. *)
Definition parametrized_hash_function_raising
  (unsupported too_long : exn) (config_hash_function : string) : result H :=
  let '(hash_name, hash_args) := split_config config_hash_function in
  hash_function ← getattr hash_name;
  match hash_function with
  | AttrNone => Raise unsupported
  | AttrCallable call =>
      kwargs ← match hash_args with
               | Some hash_args => parse_kwargs (split ","%char hash_args) ∅
               | None => Return ∅
               end;
      hash_function_w_kwargs ← call kwargs;
      d ← h_digest hash_function_w_kwargs;
      if decide (MAXIMUM_CHECKSUM_LENGTH < length d) then Raise too_long
      else Return hash_function_w_kwargs
  end.

(** [benji.utils.parametrized_hash_function]. *)
Definition parametrized_hash_function : string -> result H :=
  parametrized_hash_function_raising ConfigurationError ConfigurationError.

(** [backy2.utils.parametrized_hash_function]. *)
Definition backy2_parametrized_hash_function : string -> result H :=
  parametrized_hash_function_raising NotImplementedError RuntimeError.

(** Hash objects live in a store and are passed by reference. *)
Definition loc : Type := nat.

(** [h.copy()]: a new object with the state of [h]. *)
Definition hash_copy (h : loc) : py (gmap loc H) loc := fun σ =>
  match σ !! h with
  | Some s => let l := fresh (dom σ) in (<[l := s]> σ, Return l)
  | None => (σ, Raise AttributeError)
  end.

(** [h.update(data)]: in place. *)
Definition hash_update (h : loc) (data : list Byte.byte)
  : py (gmap loc H) unit := fun σ =>
  match σ !! h with
  | Some s => (<[h := h_update s data]> σ, Return tt)
  | None => (σ, Raise AttributeError)
  end.

(** [h.hexdigest()]. *)
Definition hash_hexdigest (h : loc) : py (gmap loc H) string := fun σ =>
  match σ !! h with
  | Some s => (σ, h_hexdigest s)
  | None => (σ, Raise AttributeError)
  end.

(** [data_hexdigest(hash_function, data)]. *)
Definition data_hexdigest (hash_function : loc) (data : list Byte.byte)
  : py (gmap loc H) string :=
  hash ← hash_copy hash_function;
  _ ← hash_update hash data;
  hash_hexdigest hash.

End HashUtils.
End HashUtils.

(** A small [hashlib] to run the functions on: hash objects that remember
    their digest size and what they were fed, and whose digest is what
    they were fed, cut or padded with zero bytes to the digest size. *)
Module ToyHashlib.
Import HashUtils.

Record toy : Type := mkToy { toy_size : nat; toy_fed : list Byte.byte }.

Definition hex_digit (n : N) : ascii :=
  ascii_of_N (if (n <? 10)%N then 48 + n else 87 + n)%N.

Definition hex_of_byte (b : Byte.byte) : string :=
  let n := Byte.to_N b in
  String (hex_digit (n / 16)) (String (hex_digit (n mod 16)) EmptyString).

Definition hex (bytes : list Byte.byte) : string :=
  fold_right (fun b s => hex_of_byte b +:+ s) EmptyString bytes.

Definition toy_digest (t : toy) : list Byte.byte :=
  take (toy_size t) (toy_fed t ++ replicate (toy_size t) Byte.x00).

#[global] Instance toy_hash : HashObject toy := {|
  h_update t data := {| toy_size := toy_size t; toy_fed := toy_fed t ++ data |};
  h_digest t := Return (toy_digest t);
  h_hexdigest t := Return (hex (toy_digest t))
|}.

(** A constructor that takes no keyword argument. *)
Definition fixed_size (size : nat) : attr Z toy :=
  AttrCallable (fun kwargs =>
    if decide (kwargs = ∅) then Return (mkToy size []) else Raise TypeError).

(** A constructor that takes [digest_size], from 1 to 64, 64 by default. *)
Definition blake2b : attr Z toy :=
  AttrCallable (fun kwargs =>
    if decide (delete "digest_size" kwargs = ∅) then
      match kwargs !! "digest_size" with
      | Some n =>
          if decide (1 ≤ n ≤ 64)%Z then Return (mkToy (Z.to_nat n) [])
          else Raise ValueError
      | None => Return (mkToy 64 [])
      end
    else Raise TypeError).

(** A module attribute that is not callable. *)
Definition not_callable : attr Z toy := AttrCallable (fun _ => Raise TypeError).

Definition toy_hashlib (name : string) : option (attr Z toy) :=
  if decide (name = "md5") then Some (fixed_size 16)
  else if decide (name = "sha256") then Some (fixed_size 32)
  else if decide (name = "sha512") then Some (fixed_size 64)
  else if decide (name = "blake2b") then Some blake2b
  else if decide (name = "algorithms_available") then Some not_callable
  else None.

Definition digit (c : ascii) : option Z :=
  let n := N_of_ascii c in
  if decide (48 ≤ n ≤ 57)%N then Some (Z.of_N (n - 48)) else None.

Fixpoint parse_digits (s : string) (acc : Z) : option Z :=
  match s with
  | EmptyString => Some acc
  | String c s' => d ← digit c; parse_digits s' (10 * acc + d)%Z
  end.

(** [literal_eval] on decimal numerals; anything else is malformed. *)
Definition toy_literal_eval (s : string) : result Z :=
  match s with
  | EmptyString => Raise SyntaxError
  | _ => match parse_digits s 0 with
         | Some z => Return z
         | None => Raise ValueError
         end
  end.

End ToyHashlib.

(** Runs of [consume] on one bucket, for the properties of the limiter
    over time. *)
Module TokenBucketRuns.
Import TokenBucket.
Local Open Scope Q_scope.

(** Successive [consume] calls, each with the clock reading it takes and
    its amount; the rate is left alone in between. *)
Fixpoint consume_seq (b : bucket) (calls : list (Q * Q))
  : list Q * bucket :=
  match calls with
  | [] => ([], b)
  | (now, amount) :: calls' =>
      let '(w, b') := consume b now amount in
      let '(ws, b'') := consume_seq b' calls' in
      (w :: ws, b'')
  end.

End TokenBucketRuns.

(* --------------------------------------------------------------------- *)
(** ** Python strings                                                      *)
(* --------------------------------------------------------------------- *)

Module PyStr.

(** [c in s] for a character [c]. *)
Fixpoint contains (c : ascii) (s : string) : bool :=
  match s with
  | EmptyString => false
  | String c' s' => if decide (c' = c) then true else contains c s'
  end.

(** [s.replace(old, new)] for characters [old] and [new]. *)
Fixpoint replace (old new : ascii) (s : string) : string :=
  match s with
  | EmptyString => EmptyString
  | String c s' =>
      String (if decide (c = old) then new else c) (replace old new s')
  end.

(** [sep.join(l)]. *)
Fixpoint join (sep : string) (l : list string) : string :=
  match l with
  | [] => EmptyString
  | [s] => s
  | s :: l' => s +:+ sep +:+ join sep l'
  end.

End PyStr.

(* --------------------------------------------------------------------- *)
(** ** hints_from_rbd_diff                                                 *)
(* --------------------------------------------------------------------- *)

Module RbdDiff.

(** What [json.loads] returns.  An object is the dictionary it becomes,
    as its items in insertion order, one per key.  [JNonFinite] stands for
    the floats [NaN], [Infinity] and [-Infinity], which [json.loads]
    accepts. *)
#[local] Unset Elimination Schemes.
Inductive json : Type :=
| JNull
| JBool (b : bool)
| JInt (z : Z)
| JFloat (q : Q)
| JNonFinite
| JStr (s : string)
| JArr (l : list json)
| JObj (items : list (string * json)).
#[local] Set Elimination Schemes.

Definition KeyError : exn := OtherException "KeyError".

(** [d[key]] on the items of a dictionary. *)
Fixpoint dict_get (key : string) (items : list (string * json))
  : option json :=
  match items with
  | [] => None
  | (k, v) :: items' => if decide (k = key) then Some v else dict_get key items'
  end.

(** [l[key]] for a string [key]: only a dictionary can be subscripted by
    a string. *)
Definition subscript (l : json) (key : string) : result json :=
  match l with
  | JObj items =>
      match dict_get key items with
      | Some v => Return v
      | None => Raise KeyError
      end
  | _ => Raise TypeError
  end.

(** Truth value of a Python object. *)
Definition truth (v : json) : bool :=
  match v with
  | JNull => false
  | JBool b => b
  | JInt z => negb (z =? 0)%Z
  | JFloat q => negb (Qeq_bool q 0)
  | JNonFinite => true
  | JStr s => negb (bool_decide (s = EmptyString))
  | JArr l => negb (bool_decide (l = []))
  | JObj items => negb (bool_decide (items = []))
  end.

(** [v == s] for a string [s]. *)
Definition eq_str (v : json) (s : string) : bool :=
  match v with
  | JStr s' => bool_decide (s' = s)
  | _ => false
  end.

Fixpoint chars (s : string) : list json :=
  match s with
  | EmptyString => []
  | String c s' => JStr (String c EmptyString) :: chars s'
  end.

(** [for l in data]: a list gives its elements, a dictionary its keys, a
    string its characters; nothing else can be iterated. *)
Definition iterate (data : json) : result (list json) :=
  match data with
  | JArr l => Return l
  | JObj items => Return (JStr <$> items.*1)
  | JStr s => Return (chars s)
  | _ => Raise TypeError
  end.

(** The tuple built for one element. *)
Definition hint (l : json) : result (json * json * bool) :=
  offset ← subscript l "offset";
  length ← subscript l "length";
  e ← subscript l "exists";
  c ← (if eq_str e "false" then Return true
       else e' ← subscript l "exists"; Return (negb (truth e')));
  Return (offset, length, if (c : bool) then false else true).

Fixpoint hints (ls : list json) : result (list (json * json * bool)) :=
  match ls with
  | [] => Return []
  | l :: ls' => h ← hint l; hs ← hints ls'; Return (h :: hs)
  end.

Section RbdDiff.

(** [json.loads]. *)
Variable json_loads : string -> result json.

Definition hints_from_rbd_diff (rbd_diff : string)
  : result (list (json * json * bool)) :=
  data ← json_loads rbd_diff;
  ls ← iterate data;
  hints ls.

End RbdDiff.

(** One entry of [rbd diff --format json]. *)
Definition extent (offset length : Z) (exists_ : json) : json :=
  JObj [("offset", JInt offset); ("length", JInt length);
        ("exists", exists_)].

End RbdDiff.

(* --------------------------------------------------------------------- *)
(** ** notify                                                              *)
(* --------------------------------------------------------------------- *)

Module Notify.
Import PyStr.

Definition newline : ascii := "010"%char.
Definition space : ascii := " "%char.

(** [notify(process_name, msg, old_msg)].  The process title is the only
    thing the call changes ([old_msg] is a parameter: assigning to it is
    not seen by the caller); [title] is the title before the call and the
    result the title after it. *)
Definition notify (process_name msg old_msg : string) (title : string)
  : string :=
  let new_msg :=
    if negb (bool_decide (msg = EmptyString))
    then process_name +:+ " [" +:+ replace newline space msg +:+ "]"
    else process_name in
  if negb (bool_decide (old_msg = new_msg)) then new_msg else title.

End Notify.

(* --------------------------------------------------------------------- *)
(** ** class PrettyPrint                                                   *)
(* --------------------------------------------------------------------- *)

Module PrettyPrint.
Local Open Scope Q_scope.

(** The units the loop of [bytes] goes through. *)
Definition units : list string :=
  [""; "Ki"; "Mi"; "Gi"; "Ti"; "Pi"; "Ei"; "Zi"]%string.

Definition Qlt_bool (x y : Q) : bool := negb (Qle_bool y x).

Section Bytes.

(** The conversions ["%3.1f"] and ["%.1f"] of a number to text. *)
Variable fmt_3_1f : Q -> string.
Variable fmt_1f : Q -> string.

(** The [for] loop of [bytes] over the units left, and what follows it.
    Numbers are exact rationals, as for the token bucket. *)
Fixpoint bytes_loop (us : list string) (num : Q) (suffix : string)
  : string :=
  match us with
  | [] => (fmt_1f num +:+ "Yi" +:+ suffix)%string
  | unit :: us' =>
      if Qlt_bool (Qabs num) 1024
      then (fmt_3_1f num +:+ unit +:+ suffix)%string
      else bytes_loop us' (num / 1024) suffix
  end.

(** [PrettyPrint.bytes(num, suffix)]. *)
Definition bytes (num : Q) (suffix : string) : string :=
  bytes_loop units num suffix.

End Bytes.



End PrettyPrint.

(** The constructor behind [blake2b] in the small [hashlib]. *)
Definition blake2b_call : gmap string Z -> result ToyHashlib.toy :=
  match ToyHashlib.blake2b with
  | HashUtils.AttrCallable call => call
  | HashUtils.AttrNone => fun _ => Raise TypeError
  end.

(** A stand-in for [json.loads] that knows a few documents by name, to run
    [hints_from_rbd_diff] on. *)
Module RbdDiffSamples.
Import RbdDiff.

(** The third component of a hint, from the value under [exists]. *)
Definition exists_flag (e : json) : bool :=
  negb (eq_str e "false" || negb (truth e)).

Definition sample_loads (document : string) : result json :=
  if decide (document = "two extents") then
    Return (JArr [extent 0 4194304 (JStr "true");
                  extent 4194304 4194304 (JStr "false")])
  else if decide (document = "no length") then
    Return (JArr [extent 0 512 (JBool true);
                  JObj [("offset", JInt 512); ("exists", JBool true)];
                  extent 1024 512 (JBool true)])
  else if decide (document = "an object") then
    Return (extent 0 512 (JBool true))
  else Raise ValueError.

End RbdDiffSamples.

(** A stand-in for the two conversions of [bytes], to run it: the integer
    part, a point and the first decimal, for a number that is not
    negative. *)
Module PrettyPrintSamples.


End PrettyPrintSamples.

(* ===================================================================== *)
(** * Part 2: theorems                                                    *)
(* ===================================================================== *)

Module TokenBucketFacts.
Import TokenBucket.
Local Open Scope Q_scope.

Lemma truthy_false (x : Q) : truthy x = false <-> x == 0.
Proof.
  unfold truthy. rewrite negb_false_iff. apply Qeq_bool_iff.
Qed.

Lemma truthy_true (x : Q) : truthy x = true <-> ~ x == 0.
Proof.
  unfold truthy. rewrite negb_true_iff. split.
  - intros H E. apply Qeq_bool_iff in E. congruence.
  - intros H. destruct (Qeq_bool x 0) eqn:E; [|reflexivity].
    apply Qeq_bool_iff in E. contradiction.
Qed.

Lemma Qgt_bool_true (x y : Q) : Qgt_bool x y = true <-> y < x.
Proof.
  unfold Qgt_bool. rewrite negb_true_iff. split.
  - intros H. apply Qnot_le_lt. intros L. apply Qle_bool_iff in L. congruence.
  - intros H. destruct (Qle_bool x y) eqn:E; [|reflexivity].
    apply Qle_bool_iff in E. lra.
Qed.

Lemma Qgt_bool_false (x y : Q) : Qgt_bool x y = false <-> x <= y.
Proof.
  unfold Qgt_bool. rewrite negb_false_iff. apply Qle_bool_iff.
Qed.

Lemma Qle_bool_false (x y : Q) : Qle_bool x y = false <-> y < x.
Proof.
  split.
  - intros H. apply Qnot_le_lt. intros L. apply Qle_bool_iff in L. congruence.
  - intros H. destruct (Qle_bool x y) eqn:E; [|reflexivity].
    apply Qle_bool_iff in E. lra.
Qed.

(** The source's clamp [if tokens > rate: tokens = rate] is [Qmin]. *)
Lemma clamp_is_Qmin (t r : Q) : (if Qgt_bool t r then r else t) = Qmin t r.
Proof.
  unfold Qgt_bool, Qle_bool, Qmin, GenericMinMax.gmin, Qcompare, Z.leb.
  destruct (Qnum t * QDen r ?= Qnum r * QDen t)%Z; reflexivity.
Qed.

Lemma consume_limited (self : bucket) (now amount : Q) :
  ~ rate self == 0 ->
  consume self now amount = consume_spec self now amount.
Proof.
  intros Hr. unfold consume, consume_spec.
  apply truthy_true in Hr. rewrite Hr. cbn [negb].
  rewrite <- clamp_is_Qmin. cbn [with_last with_tokens tokens rate last].
  destruct (Qgt_bool _ _); cbn [with_last with_tokens tokens rate last];
    destruct (Qle_bool _ _); reflexivity.
Qed.

Lemma consume_disabled (self : bucket) (now amount : Q) :
  rate self == 0 -> consume self now amount = (0, self).
Proof.
  intros Hr. unfold consume. apply truthy_false in Hr. now rewrite Hr.
Qed.

Lemma consume_rate (self : bucket) (now amount : Q) :
  rate (snd (consume self now amount)) = rate self.
Proof.
  unfold consume. destruct (truthy (rate self)); cbn [negb]; [|reflexivity].
  cbn [with_last with_tokens tokens rate last].
  destruct (Qgt_bool _ _); cbn [with_last with_tokens tokens rate last];
    destruct (Qle_bool _ _); reflexivity.
Qed.

(** C1 (consume, rate > 0): the call stamps [last] with the clock reading,
    adds [elapsed * rate] to [tokens], clamps [tokens] from above at
    [rate], subtracts the amount, and returns 0 when the result is not
    negative and [-tokens / rate] otherwise: [consume] coincides with
    [consume_spec], the accounting as the design document words it.  In
    particular, on a bucket freshly rated at [r > 0] and with no time
    elapsed, [consume r] returns 0 and an immediately following
    [consume (r + 1)] returns a positive wait. *)
Theorem consume_accounting (self b0 : bucket) (r now amount : Q) :
  0 < rate self -> 0 < r ->
  consume self now amount = consume_spec self now amount /\
  (let b := set_rate r b0 in
   let '(w1, b1) := consume b (last b) r in
   let '(w2, _) := consume b1 (last b) (r + 1) in
   w1 = 0 /\ 0 < w2).
Proof.
  intros Hrate Hr. split.
  - apply consume_limited. lra.
  - cbn zeta.
    rewrite (consume_limited (set_rate r b0)) by (cbn; lra).
    unfold consume_spec at 1.
    cbn [set_rate with_rate with_tokens with_last tokens rate last].
    set (t1 := Qmin _ _ - r).
    assert (Ht1 : t1 == 0).
    { subst t1. rewrite Q.min_l by lra. lra. }
    assert (E1 : Qle_bool 0 t1 = true) by (apply Qle_bool_iff; lra).
    rewrite E1.
    rewrite consume_limited by (cbn; lra).
    unfold consume_spec. cbn [tokens rate last].
    set (t2 := Qmin _ _ - (r + 1)).
    assert (Ht2 : t2 == - (r + 1)).
    { subst t2. rewrite Q.min_l by lra. lra. }
    assert (E2 : Qle_bool 0 t2 = false) by (apply Qle_bool_false; lra).
    rewrite E2. split; [reflexivity|].
    unfold Qdiv. apply Qmult_lt_0_compat; [lra|].
    apply Qinv_lt_0_compat. lra.
Qed.

Lemma consume_accounting_witness :
  let self := {| tokens := 3; rate := 10; last := 100 |} in
  consume self 101 4 = consume_spec self 101 4 /\
  (let b := set_rate 10 (init 0) in
   let '(w1, b1) := consume b (last b) 10 in
   let '(w2, _) := consume b1 (last b) (10 + 1) in
   w1 = 0 /\ 0 < w2).
Proof.
  apply (consume_accounting {| tokens := 3; rate := 10; last := 100 |}
           (init 0) 10 101 4); reflexivity.
Defined.

(** C5 (set_rate): whatever the bucket held before, after [set_rate r]
    the rate is [r] and the bucket is full, [tokens = r]; the time stamp is
    not touched. *)
Theorem set_rate_full (r : Q) (self : bucket) :
  rate (set_rate r self) = r /\
  tokens (set_rate r self) = r /\
  last (set_rate r self) = last self.
Proof. repeat split. Qed.

(** C6 (consume, rate = 0): whatever the amount and the clock reading,
    [consume] on a bucket whose rate is zero returns 0 and leaves the
    bucket, hence [tokens] and [last], as it was; a bucket on which
    [set_rate] was never called is such a bucket. *)
Theorem consume_unlimited (self : bucket) (t0 now amount : Q) :
  rate self == 0 ->
  consume self now amount = (0, self) /\
  consume (init t0) now amount = (0, init t0).
Proof.
  intros Hr. split; apply consume_disabled; [assumption|reflexivity].
Qed.

Lemma consume_unlimited_witness :
  let self := {| tokens := -7; rate := 0; last := 5 |} in
  consume self 9 1000 = (0, self) /\
  consume (init 2) 9 1000 = (0, init 2).
Proof.
  apply (consume_unlimited {| tokens := -7; rate := 0; last := 5 |} 2 9 1000).
  reflexivity.
Defined.

(** C9 (consume): for a bucket with [rate >= 0], whatever its tokens (a
    debt included), the clock reading and the amount, the wait returned by
    [consume] is not negative. *)
Theorem consume_wait_nonneg (self : bucket) (now amount : Q) :
  0 <= rate self ->
  0 <= fst (consume self now amount).
Proof.
  intros Hr. destruct (Qeq_dec (rate self) 0) as [E|E].
  - rewrite consume_disabled by assumption. cbn. lra.
  - rewrite consume_limited by assumption. unfold consume_spec. cbn [fst].
    destruct (Qle_bool 0 _) eqn:Ht; [lra|].
    apply Qle_bool_false in Ht.
    unfold Qdiv. apply Qmult_le_0_compat; [lra|].
    apply Qinv_le_0_compat. assumption.
Qed.

Lemma consume_wait_nonneg_witness :
  0 <= fst (consume {| tokens := -3; rate := 2; last := 0 |} 1 4).
Proof.
  apply (consume_wait_nonneg {| tokens := -3; rate := 2; last := 0 |} 1 4).
  vm_compute. discriminate.
Defined.

(** *** The capacity invariant *)

Lemma init_within_capacity (t0 : Q) : within_capacity (init t0).
Proof. unfold within_capacity. cbn. lra. Qed.

Lemma set_rate_within_capacity (r : Q) (b : bucket) :
  within_capacity (set_rate r b).
Proof. unfold within_capacity. cbn. lra. Qed.

Lemma consume_within_capacity (b : bucket) (now amount : Q) :
  0 <= amount -> within_capacity b ->
  within_capacity (snd (consume b now amount)).
Proof.
  unfold within_capacity. intros Ha Hb.
  destruct (Qeq_dec (rate b) 0) as [E|E].
  - now rewrite consume_disabled.
  - rewrite consume_limited by assumption. unfold consume_spec.
    cbn [snd tokens rate].
    pose proof (Q.le_min_r (tokens b + (now - last b) * rate b) (rate b)).
    lra.
Qed.

Lemma exec_within_capacity (c : call) (b : bucket) :
  call_ok c -> within_capacity b -> within_capacity (exec c b).
Proof.
  destruct c as [r|now amount]; cbn [call_ok exec]; intros Hc Hb.
  - apply set_rate_within_capacity.
  - now apply consume_within_capacity.
Qed.

Lemma states_within_capacity (cs : list call) (b : bucket) :
  Forall call_ok cs -> within_capacity b ->
  Forall within_capacity (states cs b).
Proof.
  intros Hcs. revert b.
  induction Hcs as [|c cs Hc _ IH]; intros b Hb; cbn [states].
  - constructor.
  - constructor.
    + now apply exec_within_capacity.
    + apply IH. now apply exec_within_capacity.
Qed.

(** C4 (invariant): on a new bucket, after each call of any sequence of
    [set_rate] calls with a rate that is not negative and [consume] calls
    with an amount that is not negative (whatever the clock readings),
    [tokens <= rate] holds.  There is no lower clamp: such a sequence can
    leave [tokens] negative. *)
Theorem tokens_le_rate (cs : list call) (t0 : Q) :
  Forall call_ok cs ->
  Forall (fun b => tokens b <= rate b) (states cs (init t0)) /\
  (exists cs', Forall call_ok cs' /\
     Exists (fun b => tokens b < 0) (states cs' (init t0))).
Proof.
  intros Hcs. split.
  - apply (states_within_capacity cs (init t0) Hcs).
    apply init_within_capacity.
  - exists [SetRate 1; Consume t0 3]. split.
    + repeat constructor; cbn; lra.
    + apply Exists_cons_tl, Exists_cons_hd.
      cbn [states exec].
      rewrite consume_limited by (cbn; lra).
      unfold consume_spec.
      cbn [snd tokens rate last set_rate init with_rate with_tokens].
      pose proof (Q.le_min_r (1 + (t0 - t0) * 1) 1). lra.
Qed.

Lemma tokens_le_rate_witness :
  Forall (fun b => tokens b <= rate b)
    (states [SetRate 8; Consume 1 20; Consume 2 0; SetRate 0; Consume 3 5]
       (init 0)) /\
  (exists cs', Forall call_ok cs' /\
     Exists (fun b => tokens b < 0) (states cs' (init 0))).
Proof.
  apply (tokens_le_rate
           [SetRate 8; Consume 1 20; Consume 2 0; SetRate 0; Consume 3 5] 0).
  repeat constructor; vm_compute; discriminate.
Defined.

(** *** Calls at one instant *)

Lemma Qsum_cons (a : Q) (l : list Q) : Qsum (a :: l) = a + Qsum l.
Proof. reflexivity. Qed.

Lemma deficit_wait_covered (r total : Q) :
  0 <= r - total -> deficit_wait r total == 0.
Proof.
  intros H. unfold deficit_wait. rewrite Q.max_l by lra.
  unfold Qdiv. lra.
Qed.

Lemma deficit_wait_owed (r total x : Q) :
  x < 0 -> x == r - total -> deficit_wait r total == - x / r.
Proof.
  intros Hx E. unfold deficit_wait. rewrite Q.max_r by lra.
  unfold Qdiv. rewrite E. reflexivity.
Qed.

(** One [consume] at the instant of the previous accounting, on a bucket
    that holds [T <= rate] tokens. *)
Lemma consume_same_instant (b : bucket) (a T : Q) :
  0 < rate b -> tokens b == T -> T <= rate b ->
  let '(w, b') := consume b (last b) a in
  rate b' = rate b /\ last b' = last b /\ tokens b' == T - a /\
  w == Qmax 0 (- (T - a)) / rate b.
Proof.
  intros Hr HT Hcap.
  rewrite consume_limited by lra. unfold consume_spec.
  set (t := Qmin _ _ - a).
  assert (Ht : t == T - a).
  { subst t. rewrite Q.min_l by lra. lra. }
  repeat split; [exact Ht|].
  destruct (Qle_bool 0 t) eqn:E.
  - apply Qle_bool_iff in E. rewrite Q.max_l by lra. unfold Qdiv. lra.
  - apply Qle_bool_false in E. rewrite Q.max_r by lra.
    unfold Qdiv. rewrite Ht. reflexivity.
Qed.

Lemma Qsum_nonneg (l : list Q) : Forall (Qle 0) l -> 0 <= Qsum l.
Proof.
  induction 1 as [|a l Ha _ IH]; cbn [Qsum fold_right].
  - lra.
  - fold (Qsum l). lra.
Qed.

Lemma consume_all_same_instant (amounts : list Q) :
  forall (b : bucket) (T : Q),
    0 < rate b -> tokens b == T -> T <= rate b ->
    Forall (Qle 0) amounts ->
    let '(ws, b') := consume_all b (last b) amounts in
    rate b' = rate b /\ tokens b' == T - Qsum amounts /\
    forall (i : nat) (w : Q),
      ws !! i = Some w ->
      w == Qmax 0 (- (T - Qsum (take (S i) amounts))) / rate b.
Proof.
  induction amounts as [|a amounts IH]; intros b T Hr HT Hcap Hpos;
    cbn [consume_all].
  - repeat split.
    + cbn. lra.
    + intros i w H. destruct i; discriminate.
  - inversion Hpos as [|? ? Ha Hpos']; subst.
    pose proof (consume_same_instant b a T Hr HT Hcap) as H1.
    destruct (consume b (last b) a) as [w1 b1].
    destruct H1 as (Hr1 & Hl1 & Ht1 & Hw1).
    assert (Hr1' : 0 < rate b1) by (rewrite Hr1; exact Hr).
    assert (Hcap1 : T - a <= rate b1) by (rewrite Hr1; lra).
    pose proof (IH b1 (T - a) Hr1' Ht1 Hcap1 Hpos') as H2.
    rewrite Hl1 in H2.
    destruct (consume_all b1 (last b) amounts) as [ws b2].
    destruct H2 as (Hr2 & Ht2 & Hws).
    repeat split.
    + congruence.
    + rewrite Qsum_cons. lra.
    + intros [|i] w Hw.
      * cbn in Hw. injection Hw as <-. cbn [take Qsum fold_right].
        rewrite Hw1. unfold Qdiv.
        assert (E : T - a == T - (a + 0)) by lra.
        now rewrite E.
      * cbn in Hw. specialize (Hws i w Hw). rewrite Hws, Hr1.
        change (take (S (S i)) (a :: amounts)) with (a :: take (S i) amounts).
        rewrite Qsum_cons. unfold Qdiv.
        assert (E : T - a - Qsum (take (S i) amounts)
                    == T - (a + Qsum (take (S i) amounts))) by lra.
        now rewrite E.
Qed.

Lemma consume_all_length (amounts : list Q) (b : bucket) (now : Q) :
  length (fst (consume_all b now amounts)) = length amounts.
Proof.
  revert b. induction amounts as [|a amounts IH]; intros b; [reflexivity|].
  cbn [consume_all]. destruct (consume b now a) as [w b1].
  specialize (IH b1). destruct (consume_all b1 now amounts) as [ws b2].
  cbn in *. congruence.
Qed.

(** C7 as stated fails: a bucket rated at 4, then [consume 5] and
    [consume 1] at the same instant.  The waits are 1/4 and 2/4, their sum
    is 3/4, the formula gives 2/4. *)
Lemma cumulative_wait_counterexample :
  let r := 4 in
  let b := set_rate r (init 0) in
  let amounts := [5; 1] in
  0 < r /\
  fst (consume_all b (last b) amounts) = [1 / 4; 2 / 4] /\
  ~ Qsum (fst (consume_all b (last b) amounts))
      == Qmax 0 (- (r - Qsum amounts)) / r.
Proof.
  cbn zeta. split; [reflexivity|]. split; [reflexivity|].
  vm_compute. discriminate.
Qed.

(** C7, amended: on a bucket freshly rated at [r > 0], for [consume] calls
    with amounts that are not negative and no time elapsed, the wait
    returned by each call is [max(0, -(r - s)) / r] for [s] the sum of the
    amounts consumed so far; so the wait returned by the last call, not the
    sum of the returned waits, is [max(0, -(r - sum(amounts))) / r], and
    the bucket is left with [r - sum(amounts)] tokens. *)
Theorem same_instant_waits (r : Q) (b0 : bucket) (amounts : list Q) :
  0 < r -> Forall (Qle 0) amounts ->
  let b := set_rate r b0 in
  let '(ws, b') := consume_all b (last b) amounts in
  tokens b' == r - Qsum amounts /\
  (forall (i : nat) (w : Q),
      ws !! i = Some w ->
      w == deficit_wait r (Qsum (take (S i) amounts))) /\
  (forall w : Q,
      list.last ws = Some w -> w == deficit_wait r (Qsum amounts)).
Proof.
  intros Hr Hpos. cbn zeta.
  pose proof (consume_all_same_instant amounts (set_rate r b0) r) as H.
  pose proof (consume_all_length amounts (set_rate r b0)
                (last (set_rate r b0))) as Hlen.
  destruct (consume_all (set_rate r b0) (last (set_rate r b0)) amounts)
    as [ws b'].
  cbn [fst] in Hlen.
  destruct H as (_ & Ht & Hws); [exact Hr|reflexivity|cbn; lra|exact Hpos|].
  split; [exact Ht|]. split; [exact Hws|].
  intros w Hw. rewrite last_lookup in Hw.
  specialize (Hws _ _ Hw). rewrite Hws. unfold deficit_wait.
  cbn [set_rate with_rate with_tokens rate].
  rewrite Hlen.
  destruct amounts as [|a amounts'].
  - destruct ws; [discriminate Hw|discriminate Hlen].
  - cbn [length Nat.pred].
    change (S (length amounts')) with (length (a :: amounts')).
    rewrite firstn_all. reflexivity.
Qed.

Lemma same_instant_waits_witness :
  let b := set_rate 4 (init 0) in
  let '(ws, b') := consume_all b (last b) [5; 1] in
  tokens b' == 4 - Qsum [5; 1] /\
  (forall (i : nat) (w : Q),
      ws !! i = Some w ->
      w == deficit_wait 4 (Qsum (take (S i) [5; 1]))) /\
  (forall w : Q,
      list.last ws = Some w -> w == deficit_wait 4 (Qsum [5; 1])).
Proof.
  apply (same_instant_waits 4 (init 0) [5; 1]).
  - reflexivity.
  - repeat constructor; vm_compute; discriminate.
Defined.

End TokenBucketFacts.

Module DriverFacts.
Import Driver.

Section DriverFacts.
Context {value : Type}.
Implicit Types (f g : Future value) (st : driver value).
Implicit Types (l completed : list (Future value)).

Lemma list_remove_found f l :
  fut_id f ∈ fut_id <$> l -> exists l', list_remove f l = Return l'.
Proof.
  induction l as [|y l IH]; cbn [fmap list_fmap list_remove]; intros Hin.
  - by apply elem_of_nil in Hin.
  - destruct (decide (fut_id y = fut_id f)) as [E|E]; [by eexists|].
    apply elem_of_cons in Hin as [Hin|Hin]; [congruence|].
    destruct (IH Hin) as [l' ->]. by eexists.
Qed.

Lemma list_remove_missing f l :
  fut_id f ∉ fut_id <$> l -> list_remove f l = Raise ValueError.
Proof.
  induction l as [|y l IH]; cbn [fmap list_fmap list_remove]; intros Hin.
  - reflexivity.
  - apply not_elem_of_cons in Hin as [Hne Hin].
    destruct (decide (fut_id y = fut_id f)) as [E|E]; [congruence|].
    by rewrite IH.
Qed.

Lemma release_room (sem : Semaphore) st :
  semaphore st = Some sem -> releasable st ->
  release sem = Return (sem_incr sem).
Proof.
  unfold releasable, release. intros -> Hroom.
  destruct (sem_initial sem) as [initial|]; [|reflexivity].
  destruct (decide (initial < sem_value sem + 1)); [lia|reflexivity].
Qed.

Lemma loop_body_settled f st :
  registered f st -> (cancelled f = false -> releasable st) ->
  exists l, list_remove f (futures st) = Return l /\
            loop_body f st = (settled f l st, delivery f).
Proof.
  intros Hreg Hroom. destruct (list_remove_found f _ Hreg) as [l Hl].
  exists l. split; [exact Hl|].
  unfold loop_body, mbind, py_bind, futures_remove, settled, delivery.
  rewrite Hl. cbn [semaphore futures].
  unfold cancelled, future_result in *.
  destruct (semaphore st) as [sem|] eqn:Hsem.
  - destruct (fut_state f) as [|[v|e]]; cbn [negb fmap option_fmap option_map].
    + reflexivity.
    + unfold semaphore_release.
      rewrite (release_room sem st Hsem (Hroom eq_refl)). reflexivity.
    + unfold semaphore_release.
      rewrite (release_room sem st Hsem (Hroom eq_refl)). cbn.
      by destruct (is_Exception e).
  - destruct (fut_state f) as [|[v|e]]; cbn; try reflexivity.
    by destruct (is_Exception e).
Qed.

Lemma drain_app (pre post : list (Future value)) (times_out : bool) st :
  future_results_as_completed (pre ++ post) times_out st =
  match future_results_as_completed pre false st with
  | (st1, ys1, None) =>
      let '(st2, ys2, r) := future_results_as_completed post times_out st1 in
      (st2, ys1 ++ ys2, r)
  | (st1, ys1, Some e) => (st1, ys1, Some e)
  end.
Proof.
  revert st. induction pre as [|f pre IH]; intros st.
  - cbn. by destruct (future_results_as_completed post times_out st)
      as [[st2 ys2] r].
  - cbn [app future_results_as_completed].
    destruct (loop_body f st) as [st' [e|y]]; [reflexivity|].
    rewrite IH.
    destruct (future_results_as_completed pre false st')
      as [[st1 ys1] [e|]]; [reflexivity|].
    by destruct (future_results_as_completed post times_out st1)
      as [[st2 ys2] r].
Qed.

(** C2, amended: a completed task whose call raised a fault [e] that is an
    [Exception] has that fault caught and yielded as an object, at its
    place in the sequence, and the iteration goes on with the completions
    that follow exactly as the generator runs on them; a task that
    completes next with a value has that value yielded.  (The iteration
    must have reached the task, the task must still be in the caller's
    list, and the semaphore, if bounded, must have room.) *)
Theorem task_fault_is_yielded
  (pre post : list (Future value)) f (e : exn) (times_out : bool)
  st st1 (ys1 : list (pyobject value)) :
  fut_state f = FINISHED (Raised e) ->
  is_Exception e = true ->
  future_results_as_completed pre false st = (st1, ys1, None) ->
  registered f st1 -> releasable st1 ->
  exists st2,
    loop_body f st1 = (st2, Return (ExnObj e)) /\
    future_results_as_completed (pre ++ f :: post) times_out st =
      (let '(st3, ys3, r) :=
         future_results_as_completed post times_out st2 in
       (st3, ys1 ++ ExnObj e :: ys3, r)) /\
    (forall g (v : value) (post' : list (Future value)),
        post = g :: post' ->
        fut_state g = FINISHED (Returned v) ->
        registered g st2 -> releasable st2 ->
        exists st3,
          future_results_as_completed (pre ++ f :: post) times_out st =
            (let '(st4, ys4, r) :=
               future_results_as_completed post' times_out st3 in
             (st4, ys1 ++ ExnObj e :: Obj v :: ys4, r))).
Proof.
  intros Hf He Hpre Hreg Hroom.
  destruct (loop_body_settled f st1 Hreg (fun _ => Hroom)) as (l & _ & Hbody).
  assert (Hdel : delivery f = Return (ExnObj e)).
  { unfold delivery. by rewrite Hf, He. }
  rewrite Hdel in Hbody.
  exists (settled f l st1). split; [exact Hbody|].
  assert (Hall : forall post0,
    future_results_as_completed (pre ++ f :: post0) times_out st =
      (let '(st3, ys3, r) :=
         future_results_as_completed post0 times_out (settled f l st1) in
       (st3, ys1 ++ ExnObj e :: ys3, r))).
  { intros post0. rewrite drain_app, Hpre.
    cbn [future_results_as_completed]. rewrite Hbody.
    by destruct (future_results_as_completed post0 times_out _)
      as [[st3 ys3] r]. }
  split; [apply Hall|].
  intros g v post' -> Hg Hgreg Hgroom.
  destruct (loop_body_settled g _ Hgreg (fun _ => Hgroom))
    as (l' & _ & Hgbody).
  assert (Hgdel : delivery g = Return (Obj v)).
  { unfold delivery. by rewrite Hg. }
  rewrite Hgdel in Hgbody.
  exists (settled g l' (settled f l st1)).
  rewrite Hall. cbn [future_results_as_completed]. rewrite Hgbody.
  by destruct (future_results_as_completed post' times_out _)
    as [[st4 ys4] r].
Qed.

(** C3, amended: for a handle that [as_completed] hands over and that is
    still in the caller's list, with a semaphore given.  If the handle was
    not cancelled and the semaphore has room, exactly one permit is
    released and the handle's result is yielded: its value, or the fault
    it raised when that is an [Exception] (any other fault is raised out
    of the generator, after the release).  If the handle was cancelled, no
    permit is released and the [CancelledError] that [result()] raises is
    caught and yielded as that handle's result. *)
Theorem completed_handle_accounting f st (sem : Semaphore) :
  semaphore st = Some sem -> registered f st ->
  exists l, list_remove f (futures st) = Return l /\
    match fut_state f with
    | CANCELLED_AND_NOTIFIED =>
        loop_body f st =
          ({| futures := l; semaphore := Some sem |},
           Return (ExnObj CancelledError))
    | FINISHED o =>
        releasable st ->
        sem_value (sem_incr sem) = sem_value sem + 1 /\
        loop_body f st =
          ({| futures := l; semaphore := Some (sem_incr sem) |},
           match o with
           | Returned v => Return (Obj v)
           | Raised e =>
               if is_Exception e then Return (ExnObj e) else Raise e
           end)
    end.
Proof.
  intros Hsem Hreg.
  destruct (list_remove_found f _ Hreg) as [l Hl].
  exists l. split; [exact Hl|].
  destruct (fut_state f) as [|o] eqn:Hf.
  - destruct (loop_body_settled f st Hreg) as (l0 & Hl0 & Hbody).
    { unfold cancelled. by rewrite Hf. }
    rewrite Hl in Hl0. injection Hl0 as <-.
    rewrite Hbody. unfold settled, delivery, cancelled.
    by rewrite Hf, Hsem.
  - intros Hroom. split; [reflexivity|].
    destruct (loop_body_settled f st Hreg (fun _ => Hroom))
      as (l0 & Hl0 & Hbody).
    rewrite Hl in Hl0. injection Hl0 as <-.
    rewrite Hbody. unfold settled, delivery, cancelled.
    rewrite Hf, Hsem. by destruct o.
Qed.

End DriverFacts.

(** C2 as stated fails: a task that raises [SystemExit], which is no
    [Exception].  The fault leaves the generator, nothing is yielded for
    the task, and the task that completed after it is never yielded. *)
Lemma task_fault_counterexample :
  future_results_as_completed [exiting; returning] false
    {| futures := [exiting; returning]; semaphore := pool 0 |}
  = ({| futures := [returning]; semaphore := pool 1 |}, [], Some SystemExit).
Proof. reflexivity. Qed.

Lemma task_fault_is_yielded_witness :
  exists st2,
    loop_body failing
      {| futures := [failing; returning]; semaphore := pool 0 |}
    = (st2, Return (ExnObj (OtherException "IOError"))) /\
    future_results_as_completed ([] ++ failing :: [returning]) false
      {| futures := [failing; returning]; semaphore := pool 0 |} =
      (let '(st3, ys3, r) :=
         future_results_as_completed [returning] false st2 in
       (st3, [] ++ ExnObj (OtherException "IOError") :: ys3, r)) /\
    (forall g (v : nat) (post' : list (Future nat)),
        [returning] = g :: post' ->
        fut_state g = FINISHED (Returned v) ->
        registered g st2 -> releasable st2 ->
        exists st3,
          future_results_as_completed ([] ++ failing :: [returning]) false
            {| futures := [failing; returning]; semaphore := pool 0 |} =
            (let '(st4, ys4, r) :=
               future_results_as_completed post' false st3 in
             (st4, [] ++ ExnObj (OtherException "IOError") :: Obj v :: ys4,
              r))).
Proof.
  apply (task_fault_is_yielded [] [returning] failing
           (OtherException "IOError") false
           {| futures := [failing; returning]; semaphore := pool 0 |}
           {| futures := [failing; returning]; semaphore := pool 0 |} []).
  - reflexivity.
  - reflexivity.
  - reflexivity.
  - unfold registered. cbn. apply list_elem_of_here.
  - cbn. lia.
Defined.

(** C3 as stated fails on its last part: a cancelled handle does get a
    result delivered, the [CancelledError] instance.  (No permit is
    released for it.) *)
Lemma cancelled_handle_counterexample :
  let '(st', yielded, _) :=
    future_results_as_completed [cancelled_handle] false
      {| futures := [cancelled_handle]; semaphore := pool 0 |} in
  yielded = [ExnObj CancelledError] /\ yielded <> [] /\
  semaphore st' = pool 0.
Proof. cbn. repeat split. discriminate. Qed.

Lemma completed_handle_accounting_witness :
  exists l,
    list_remove returning (futures
      {| futures := [cancelled_handle; returning]; semaphore := pool 1 |})
    = Return l /\
    (releasable
       {| futures := [cancelled_handle; returning]; semaphore := pool 1 |} ->
     sem_value (sem_incr {| sem_value := 1; sem_initial := Some 2 |})
     = 1 + 1 /\
     loop_body returning
       {| futures := [cancelled_handle; returning]; semaphore := pool 1 |}
     = ({| futures := l;
           semaphore :=
             Some (sem_incr {| sem_value := 1; sem_initial := Some 2 |}) |},
        Return (Obj 7))).
Proof.
  apply (completed_handle_accounting returning
           {| futures := [cancelled_handle; returning]; semaphore := pool 1 |}
           {| sem_value := 1; sem_initial := Some 2 |}).
  - reflexivity.
  - unfold registered. cbn. apply list_elem_of_further, list_elem_of_here.
Defined.

End DriverFacts.

Module HashFacts.
Import HashUtils.

Section HashFacts.
Context {pyval H : Type} `{HashObject H}.
Variable literal_eval : string -> result pyval.
Variable hashlib : string -> option (attr pyval H).
Variable MAXIMUM_CHECKSUM_LENGTH : nat.

(** An unknown name stops the function at [getattr], before the test that
    raises the configuration error. *)
Lemma unknown_name_AttributeError
  (unsupported too_long : exn) (config_hash_function : string) :
  hashlib (split_config config_hash_function).1 = None ->
  parametrized_hash_function_raising literal_eval hashlib
    MAXIMUM_CHECKSUM_LENGTH unsupported too_long config_hash_function
  = Raise AttributeError.
Proof.
  unfold parametrized_hash_function_raising.
  destruct (split_config config_hash_function) as [hash_name hash_args].
  cbn [fst]. intros Hname. unfold getattr. by rewrite Hname.
Qed.

(** A name without arguments that resolves to a constructor: the digest
    length decides. *)
Lemma plain_name_resolved
  (unsupported too_long : exn) (hash_name : string)
  (call : gmap string pyval -> result H) (h : H) (d : list Byte.byte) :
  split_config hash_name = (hash_name, None) ->
  hashlib hash_name = Some (AttrCallable call) ->
  call ∅ = Return h ->
  h_digest h = Return d ->
  parametrized_hash_function_raising literal_eval hashlib
    MAXIMUM_CHECKSUM_LENGTH unsupported too_long hash_name
  = if decide (MAXIMUM_CHECKSUM_LENGTH < length d) then Raise too_long
    else Return h.
Proof.
  intros Hsplit Hname Hcall Hd.
  unfold parametrized_hash_function_raising. rewrite Hsplit.
  unfold getattr. rewrite Hname. cbn. rewrite Hcall. cbn. by rewrite Hd.
Qed.

Lemma data_hexdigest_run (σ : gmap loc H) (h : loc) (s : H)
  (data : list Byte.byte) :
  σ !! h = Some s ->
  data_hexdigest h data σ =
    (<[fresh (dom σ) := h_update s data]> (<[fresh (dom σ) := s]> σ),
     h_hexdigest (h_update s data)).
Proof.
  intros Hh. unfold data_hexdigest, mbind, py_bind, hash_copy.
  rewrite Hh. cbn zeta. unfold hash_update.
  rewrite lookup_insert_eq. unfold hash_hexdigest.
  by rewrite lookup_insert_eq.
Qed.

Lemma fresh_loc_ne (σ : gmap loc H) (l : loc) (x : H) :
  σ !! l = Some x -> fresh (dom σ) ≠ l.
Proof.
  intros Hl E. apply (is_fresh (dom σ)). rewrite E.
  apply elem_of_dom. by eexists.
Qed.

(** C10 (data_hexdigest): the call works on a copy.  Whatever the hash
    object and the data, every object of the store, the one passed in
    first, is after the call in the state it had before, and a second call
    with the same object and data returns what the first returned: the
    hexdigest of the state updated with the data. *)
Theorem data_hexdigest_leaves_hash_function
  (σ : gmap loc H) (hash_function : loc) (s : H) (data : list Byte.byte) :
  σ !! hash_function = Some s ->
  let '(σ1, r1) := data_hexdigest hash_function data σ in
  let '(σ2, r2) := data_hexdigest hash_function data σ1 in
  σ1 !! hash_function = Some s /\
  (forall (l : loc) (x : H), σ !! l = Some x -> σ1 !! l = Some x) /\
  r1 = h_hexdigest (h_update s data) /\
  r2 = r1 /\
  σ2 !! hash_function = Some s.
Proof.
  intros Hh. rewrite (data_hexdigest_run σ hash_function s data Hh).
  set (σ1 := <[fresh (dom σ) := h_update s data]> _).
  assert (Hframe : forall l x, σ !! l = Some x -> σ1 !! l = Some x).
  { intros l x Hl. subst σ1.
    pose proof (fresh_loc_ne σ l x Hl).
    by rewrite !lookup_insert_ne. }
  pose proof (Hframe _ _ Hh) as Hh1.
  rewrite (data_hexdigest_run σ1 hash_function s data Hh1).
  repeat split; try done.
  pose proof (fresh_loc_ne σ1 hash_function s Hh1).
  by rewrite !lookup_insert_ne.
Qed.

End HashFacts.

Import ToyHashlib.

(** C8, first part, fails on the code: for a name that [hashlib] does not
    have, [getattr] raises [AttributeError]; the [is None] test that would
    raise the configuration error ([NotImplementedError] in backy2) is
    never reached.  The other two parts hold: a digest longer than the
    maximum raises the configuration error, and otherwise the constructed
    hash object is returned. *)
Theorem unknown_hash_name_escapes :
  parametrized_hash_function toy_literal_eval toy_hashlib 64 "nosuchhash"
    = Raise AttributeError /\
  backy2_parametrized_hash_function toy_literal_eval toy_hashlib 64
    "nosuchhash" = Raise AttributeError /\
  parametrized_hash_function toy_literal_eval toy_hashlib 64
    "nosuchhash,digest_size=32" = Raise AttributeError /\
  parametrized_hash_function toy_literal_eval toy_hashlib 32 "sha512"
    = Raise ConfigurationError /\
  parametrized_hash_function toy_literal_eval toy_hashlib 64
    "blake2b,digest_size=32" = Return (mkToy 32 []).
Proof. repeat split; vm_compute; reflexivity. Qed.

Lemma data_hexdigest_leaves_hash_function_witness :
  let σ : gmap loc toy := {[ 0 := mkToy 4 [Byte.x61] ]} in
  let '(σ1, r1) := data_hexdigest 0 [Byte.x62; Byte.x63] σ in
  let '(σ2, r2) := data_hexdigest 0 [Byte.x62; Byte.x63] σ1 in
  σ1 !! 0 = Some (mkToy 4 [Byte.x61]) /\
  (forall (l : loc) (x : toy), σ !! l = Some x -> σ1 !! l = Some x) /\
  r1 = h_hexdigest (h_update (mkToy 4 [Byte.x61]) [Byte.x62; Byte.x63]) /\
  r2 = r1 /\
  σ2 !! 0 = Some (mkToy 4 [Byte.x61]).
Proof.
  apply (data_hexdigest_leaves_hash_function
           ({[ 0 := mkToy 4 [Byte.x61] ]} : gmap loc toy) 0
           (mkToy 4 [Byte.x61]) [Byte.x62; Byte.x63]).
  reflexivity.
Defined.

Example data_hexdigest_toy :
  (data_hexdigest 0 [Byte.x62; Byte.x63]
     ({[ 0 := mkToy 4 [Byte.x61] ]} : gmap loc toy)).2
  = Return "61626300".
Proof. vm_compute. reflexivity. Qed.

End HashFacts.

(* --------------------------------------------------------------------- *)
(** ** More on the token bucket                                            *)
(* --------------------------------------------------------------------- *)

Module TokenBucketExtra.
Import TokenBucket TokenBucketRuns TokenBucketFacts.
Local Open Scope Q_scope.

(** What a call on a limited bucket leaves and returns, in terms of the
    debited token count. *)
Lemma consume_limited_fields (self : bucket) (now amount : Q) :
  0 < rate self ->
  let t := Qmin (tokens self + (now - last self) * rate self) (rate self)
           - amount in
  tokens (snd (consume self now amount)) = t /\
  rate (snd (consume self now amount)) = rate self /\
  last (snd (consume self now amount)) = now /\
  fst (consume self now amount)
  = (if Qle_bool 0 t then 0 else - t / rate self).
Proof.
  intros Hr. rewrite consume_limited by lra. unfold consume_spec.
  cbn. repeat split.
Qed.

Lemma debt_over_rate (t r : Q) : 0 < r -> (- t / r) * r == - t.
Proof. intros Hr. field. lra. Qed.

(** X1 (the nap is exact): when [consume] returns a wait [w > 0], a probe
    [consume(0)] taken [d] later, for [0 <= d <= w], returns [w - d]: the
    rest of the nap, and nothing once the whole nap has passed. *)
Theorem nap_is_exact (self : bucket) (now amount d : Q) :
  0 < rate self ->
  0 < fst (consume self now amount) ->
  0 <= d <= fst (consume self now amount) ->
  fst (consume (snd (consume self now amount)) (now + d) 0)
  == fst (consume self now amount) - d.
Proof.
  intros Hr Hw Hd.
  destruct (consume_limited_fields self now amount Hr)
    as (Ht & Hrate & Hlast & Hfst).
  set (b := snd (consume self now amount)) in *.
  set (w := fst (consume self now amount)) in *.
  set (t := Qmin _ _ - amount) in *.
  destruct (Qle_bool 0 t) eqn:E; [rewrite Hfst in Hw; lra|].
  apply Qle_bool_false in E.
  assert (Hwr : w * rate self == - t).
  { rewrite Hfst. apply debt_over_rate, Hr. }
  assert (Hdr : d * rate self <= w * rate self).
  { apply Qmult_le_compat_r; lra. }
  assert (Hrb : 0 < rate b) by (rewrite Hrate; exact Hr).
  destruct (consume_limited_fields b (now + d) 0 Hrb) as (_ & _ & _ & Hfst').
  rewrite Hfst'. rewrite Ht, Hrate, Hlast.
  set (t' := Qmin _ _ - 0).
  assert (Ht' : t' == t + d * rate self).
  { subst t'. rewrite Q.min_l by lra. lra. }
  destruct (Qle_bool 0 t') eqn:E'.
  - apply Qle_bool_iff in E'.
    assert (Heq : (w - d) * rate self == 0) by lra.
    apply Qmult_integral in Heq as [Heq|Heq]; lra.
  - assert (Hx : w - d == (w * rate self - d * rate self) / rate self)
      by (field; lra).
    rewrite Hx. unfold Qdiv. apply Qmult_comp; [|reflexivity].
    rewrite Ht', Hwr. lra.
Qed.

Lemma nap_is_exact_witness :
  let self := {| tokens := 1; rate := 4; last := 10 |} in
  fst (consume (snd (consume self 10 7)) (10 + 1) 0)
  == fst (consume self 10 7) - 1.
Proof.
  apply (nap_is_exact {| tokens := 1; rate := 4; last := 10 |} 10 7 1).
  - reflexivity.
  - reflexivity.
  - split; vm_compute; discriminate.
Defined.

(** X2 (refill): on a limited bucket that is not in debt, once a full time
    unit has passed the bucket is full again, so any amount up to the rate
    is granted without a wait and leaves [rate - amount] tokens. *)
Theorem full_after_one_time_unit (self : bucket) (now amount : Q) :
  0 < rate self -> 0 <= tokens self -> 1 <= now - last self ->
  amount <= rate self ->
  fst (consume self now amount) = 0 /\
  tokens (snd (consume self now amount)) == rate self - amount.
Proof.
  intros Hr Ht Hlapse Ha.
  destruct (consume_limited_fields self now amount Hr)
    as (Htok & _ & _ & Hfst).
  rewrite Hfst, Htok.
  assert (Hfull : rate self <= tokens self + (now - last self) * rate self).
  { assert (1 * rate self <= (now - last self) * rate self)
      by (apply Qmult_le_compat_r; lra).
    lra. }
  assert (E : Qmin (tokens self + (now - last self) * rate self) (rate self)
              - amount == rate self - amount).
  { rewrite Q.min_r by exact Hfull. reflexivity. }
  split; [|exact E].
  assert (Hle : Qle_bool 0
            (Qmin (tokens self + (now - last self) * rate self) (rate self)
             - amount) = true).
  { apply Qle_bool_iff. lra. }
  now rewrite Hle.
Qed.

Lemma full_after_one_time_unit_witness :
  let self := {| tokens := 0; rate := 1000; last := 5 |} in
  fst (consume self 6 1000) = 0 /\
  tokens (snd (consume self 6 1000)) == 1000 - 1000.
Proof.
  apply (full_after_one_time_unit
           {| tokens := 0; rate := 1000; last := 5 |} 6 1000);
    vm_compute; discriminate || reflexivity.
Defined.

(** X3 (clock stepping back): the code has no guard against a clock
    reading earlier than the last stamp.  On a limited bucket within
    capacity such a call takes [(last - now) * rate] tokens away on top of
    the amount, and moves the stamp back. *)
Theorem backwards_clock_charges (self : bucket) (now amount : Q) :
  0 < rate self -> tokens self <= rate self -> now < last self ->
  tokens (snd (consume self now amount))
  == tokens self - (last self - now) * rate self - amount /\
  tokens (snd (consume self now amount)) < tokens self - amount /\
  last (snd (consume self now amount)) = now.
Proof.
  intros Hr Hcap Hback.
  destruct (consume_limited_fields self now amount Hr)
    as (Htok & _ & Hlast & _).
  rewrite Htok, Hlast.
  assert (Hneg : 0 < (last self - now) * rate self).
  { apply Qmult_lt_0_compat; lra. }
  assert (E : Qmin (tokens self + (now - last self) * rate self) (rate self)
              == tokens self + (now - last self) * rate self).
  { apply Q.min_l.
    assert ((now - last self) * rate self
            == - ((last self - now) * rate self)) by ring.
    lra. }
  rewrite E. repeat split; lra.
Qed.

Lemma backwards_clock_charges_witness :
  let self := {| tokens := 5; rate := 10; last := 100 |} in
  tokens (snd (consume self 99 2)) == 5 - (100 - 99) * 10 - 2 /\
  tokens (snd (consume self 99 2)) < 5 - 2 /\
  last (snd (consume self 99 2)) = 99.
Proof.
  apply (backwards_clock_charges
           {| tokens := 5; rate := 10; last := 100 |} 99 2);
    vm_compute; discriminate || reflexivity.
Defined.

(** X4 (negative amounts): [consume] does not check the sign of the
    amount.  A negative amount on a limited bucket that is full after the
    replenishment leaves more tokens than the rate: the capacity bound
    holds only for amounts that are not negative. *)
Theorem negative_amount_overfills (self : bucket) (now amount : Q) :
  0 < rate self -> amount < 0 ->
  rate self <= tokens self + (now - last self) * rate self ->
  tokens (snd (consume self now amount)) == rate self - amount /\
  ~ within_capacity (snd (consume self now amount)).
Proof.
  intros Hr Ha Hfull.
  destruct (consume_limited_fields self now amount Hr)
    as (Htok & Hrate & _ & _).
  unfold within_capacity. rewrite Htok, Hrate.
  assert (E : Qmin (tokens self + (now - last self) * rate self) (rate self)
              == rate self) by (apply Q.min_r; exact Hfull).
  rewrite E. split; [reflexivity|lra].
Qed.

Lemma negative_amount_overfills_witness :
  let self := set_rate 8 (init 0) in
  tokens (snd (consume self 0 (-3))) == 8 - (-3) /\
  ~ within_capacity (snd (consume self 0 (-3))).
Proof.
  apply (negative_amount_overfills (set_rate 8 (init 0)) 0 (-3));
    vm_compute; discriminate || reflexivity.
Defined.

(** X5 (calls at one instant add up): on a limited bucket, [consume(a)]
    with [a >= 0] followed at the same clock reading by [consume(b)]
    returns for the second call the wait that one [consume(a + b)] would
    have returned, and leaves the bucket with the same tokens, rate and
    stamp. *)
Theorem same_instant_calls_add_up (self : bucket) (now a b : Q) :
  0 < rate self -> 0 <= a ->
  let two := consume (snd (consume self now a)) now b in
  let one := consume self now (a + b) in
  fst two == fst one /\
  tokens (snd two) == tokens (snd one) /\
  rate (snd two) = rate (snd one) /\
  last (snd two) = last (snd one).
Proof.
  intros Hr Ha. cbn zeta.
  destruct (consume_limited_fields self now a Hr)
    as (Htok1 & Hrate1 & Hlast1 & _).
  set (b1 := snd (consume self now a)) in *.
  assert (Hr1 : 0 < rate b1) by (rewrite Hrate1; exact Hr).
  destruct (consume_limited_fields b1 now b Hr1)
    as (Htok2 & Hrate2 & Hlast2 & Hfst2).
  destruct (consume_limited_fields self now (a + b) Hr)
    as (Htok & Hrate & Hlast & Hfst).
  rewrite Htok1, Hrate1, Hlast1 in Htok2, Hfst2.
  set (T := Qmin (tokens self + (now - last self) * rate self) (rate self))
    in *.
  assert (HT : T <= rate self) by apply Q.le_min_r.
  set (t2 := Qmin (T - a + (now - now) * rate self) (rate self) - b) in *.
  assert (E : t2 == T - (a + b)).
  { subst t2. rewrite Q.min_l by lra. lra. }
  rewrite Hfst2, Hfst, Htok2, Htok, Hrate2, Hrate, Hlast2, Hlast, Hrate1.
  repeat split; [|exact E].
  destruct (Qle_bool 0 t2) eqn:E2; destruct (Qle_bool 0 (T - (a + b))) eqn:E1;
    try apply Qle_bool_iff in E1; try apply Qle_bool_iff in E2;
    try apply Qle_bool_false in E1; try apply Qle_bool_false in E2;
    try lra.
  unfold Qdiv. apply Qmult_comp; [|reflexivity]. now rewrite E.
Qed.

Lemma same_instant_calls_add_up_witness :
  let self := {| tokens := 2; rate := 10; last := 7 |} in
  let two := consume (snd (consume self 8 9)) 8 5 in
  let one := consume self 8 (9 + 5) in
  fst two == fst one /\
  tokens (snd two) == tokens (snd one) /\
  rate (snd two) = rate (snd one) /\
  last (snd two) = last (snd one).
Proof.
  apply (same_instant_calls_add_up
           {| tokens := 2; rate := 10; last := 7 |} 8 9 5);
    vm_compute; discriminate || reflexivity.
Defined.



(** One call on a limited bucket: the amount is paid for by tokens held or
    replenished, and the debt left is covered by the wait returned. *)
Lemma consume_step_budget (b : bucket) (now amount : Q) :
  0 < rate b ->
  let '(w, b') := consume b now amount in
  rate b' = rate b /\
  amount + tokens b' <= tokens b + rate b * (last b' - last b) /\
  amount + tokens b' <= rate b /\
  0 <= w /\ - tokens b' <= rate b * w.
Proof.
  intros Hr.
  destruct (consume_limited_fields b now amount Hr)
    as (Htok & Hrate & Hlast & Hfst).
  destruct (consume b now amount) as [w b']. cbn [fst snd] in *.
  rewrite Htok, Hlast, Hfst.
  set (T := tokens b + (now - last b) * rate b).
  pose proof (Q.le_min_l T (rate b)) as H1.
  pose proof (Q.le_min_r T (rate b)) as H2.
  assert (HT : T == tokens b + rate b * (now - last b)) by (subst T; ring).
  split; [exact Hrate|]. split; [lra|]. split; [lra|].
  destruct (Qle_bool 0 (Qmin T (rate b) - amount)) eqn:E.
  - apply Qle_bool_iff in E. split; [lra|].
    assert (rate b * 0 == 0) by ring. lra.
  - apply Qle_bool_false in E.
    assert (Hd : rate b * (- (Qmin T (rate b) - amount) / rate b)
                 == - (Qmin T (rate b) - amount)) by (field; lra).
    split; [|lra].
    unfold Qdiv. apply Qmult_le_0_compat; [lra|].
    apply Qinv_le_0_compat. lra.
Qed.

Lemma consume_seq_budget (calls : list (Q * Q)) :
  forall b : bucket,
    0 < rate b ->
    let '(ws, b') := consume_seq b calls in
    rate b' = rate b /\
    Qsum (snd <$> calls) + tokens b'
    <= tokens b + rate b * (last b' - last b) /\
    forall w : Q, list.last ws = Some w -> - tokens b' <= rate b * w.
Proof.
  induction calls as [|[now amount] calls IH]; intros b Hr;
    cbn [consume_seq].
  - split; [reflexivity|]. split; [|intros w Hw; discriminate Hw].
    cbn. assert (rate b * (last b - last b) == 0) by ring. lra.
  - pose proof (consume_step_budget b now amount Hr) as H1.
    destruct (consume b now amount) as [w1 b1].
    destruct H1 as (Hrate1 & Hbud1 & _ & _ & Hdebt1).
    assert (Hr1 : 0 < rate b1) by (rewrite Hrate1; exact Hr).
    pose proof (IH b1 Hr1) as H2.
    destruct calls as [|c calls'].
    + cbn [consume_seq] in *. split; [exact Hrate1|]. split.
      * cbn. cbn in Hbud1. lra.
      * intros w Hw. cbn in Hw. injection Hw as <-. exact Hdebt1.
    + destruct (consume_seq b1 (c :: calls')) as [ws b2] eqn:Hseq.
      destruct H2 as (Hrate2 & Hbud2 & Hdebt2).
      split; [congruence|]. split.
      * rewrite fmap_cons. change (Qsum ((now, amount).2 :: ?l))
          with (amount + Qsum l).
        rewrite Hrate1 in Hbud2.
        assert (rate b * (last b2 - last b)
                == rate b * (last b2 - last b1) + rate b * (last b1 - last b))
          by ring.
        lra.
      * intros w Hw. rewrite <- Hrate1. apply Hdebt2.
        cbn [consume_seq] in Hseq. destruct c as [now2 a2].
        destruct (consume b1 now2 a2) as [w2 b1'].
        destruct (consume_seq b1' calls') as [ws' b2'].
        injection Hseq as <- _. exact Hw.
Qed.

(** X7 (what the limiter guarantees): for any run of [consume] calls on a
    bucket within capacity (rate [r > 0] left alone, any clock readings),
    by the time the nap advised by the last call is over, the amounts
    consumed add up to at most [r] times the time since the bucket's
    stamp, plus one burst of [r]. *)
Theorem throughput_bound (b : bucket) (calls : list (Q * Q)) (w : Q) :
  0 < rate b -> tokens b <= rate b ->
  list.last (fst (consume_seq b calls)) = Some w ->
  Qsum (snd <$> calls)
  <= rate b * (last (snd (consume_seq b calls)) + w - last b) + rate b.
Proof.
  intros Hr Hcap Hw.
  pose proof (consume_seq_budget calls b Hr) as H.
  destruct (consume_seq b calls) as [ws b']. cbn [fst snd] in *.
  destruct H as (_ & Hbud & Hdebt). specialize (Hdebt w Hw).
  assert (rate b * (last b' + w - last b)
          == rate b * (last b' - last b) + rate b * w) by ring.
  lra.
Qed.

Lemma throughput_bound_witness :
  let b := set_rate 4 (init 0) in
  let calls := [(0, 5); (1, 3); (1, 6)] in
  Qsum (snd <$> calls)
  <= rate b * (last (snd (consume_seq b calls)) + 6 / 4 - last b) + rate b.
Proof.
  apply (throughput_bound (set_rate 4 (init 0)) [(0, 5); (1, 3); (1, 6)]
           (6 / 4)).
  - reflexivity.
  - vm_compute. discriminate.
  - reflexivity.
Defined.

End TokenBucketExtra.

(* --------------------------------------------------------------------- *)
(** ** More on the completion driver                                       *)
(* --------------------------------------------------------------------- *)

Module DriverExtra.
Import Driver DriverFacts.

Section DriverExtra.
Context {value : Type}.
Implicit Types (f g : Future value) (st : driver value).
Implicit Types (l completed : list (Future value)).

(** [list.remove] takes out the first future with the identity asked
    for, and nothing else. *)
Lemma list_remove_split f l l' :
  list_remove f l = Return l' ->
  exists l1 g l2,
    l = l1 ++ g :: l2 /\ fut_id g = fut_id f /\
    (fut_id f ∉ fut_id <$> l1) /\ l' = l1 ++ l2.
Proof.
  revert l'. induction l as [|y l IH]; intros l'; cbn [list_remove].
  - discriminate.
  - destruct (decide (fut_id y = fut_id f)) as [E|E].
    + intros [= <-]. exists [], y, l. repeat split; [done|].
      cbn. apply not_elem_of_nil.
    + destruct (list_remove f l) as [e|l0] eqn:Hl; cbn; [discriminate|].
      intros [= <-]. destruct (IH l0 eq_refl) as (l1 & g & l2 & -> & Hg & Hn & ->).
      exists (y :: l1), g, l2. repeat split; [done|].
      cbn. apply not_elem_of_cons. split; [congruence|done].
Qed.

Lemma release_Return (sem sem' : Semaphore) :
  release sem = Return sem' -> sem' = sem_incr sem.
Proof.
  unfold release. destruct (sem_initial sem);
    [destruct (decide _)|]; congruence.
Qed.

Lemma list_remove_Raise f l (e : exn) :
  list_remove f l = Raise e -> e = ValueError.
Proof.
  induction l as [|y l IH]; cbn [list_remove].
  - congruence.
  - destruct (decide (fut_id y = fut_id f)); [discriminate|].
    destruct (list_remove f l); cbn; [|discriminate].
    intros [= <-]. by apply IH.
Qed.

(** An iteration that yields has taken the future out of the list, has
    released a permit unless the future was cancelled, and yields the
    future's delivery. *)
Lemma loop_body_yield_inv f st st' (y : pyobject value) :
  loop_body f st = (st', Return y) ->
  delivery f = Return y /\
  exists l', list_remove f (futures st) = Return l' /\ st' = settled f l' st.
Proof.
  unfold loop_body, mbind, py_bind, futures_remove.
  destruct (list_remove f (futures st)) as [e|l'] eqn:Hl; [discriminate|].
  cbn [semaphore futures]. intros Hbody.
  cut (delivery f = Return y /\ st' = settled f l' st).
  { intros [? ?]. split; [done|]. by exists l'. }
  revert Hbody. unfold settled, delivery, cancelled, future_result.
  destruct (semaphore st) as [sem|];
    destruct (fut_state f) as [|[v|e]]; cbn [negb fmap option_fmap option_map];
    unfold semaphore_release;
    try (destruct (release sem) as [e0|sem'] eqn:Hrel; [discriminate|];
         apply release_Return in Hrel as ->);
    cbn; try (destruct (is_Exception e); [|discriminate]);
    by intros [= <- <-].
Qed.

(** An iteration that raises: the exception is a [ValueError], or a fault
    of the task that is no [Exception]. *)
Lemma loop_body_raise_inv f st st' (e : exn) :
  loop_body f st = (st', Raise e) ->
  e = ValueError \/
  (is_Exception e = false /\ fut_state f = FINISHED (Raised e)).
Proof.
  unfold loop_body, mbind, py_bind, futures_remove, cancelled, future_result.
  destruct (list_remove f (futures st)) as [e0|l'] eqn:Hl.
  - apply list_remove_Raise in Hl. intros [= _ <-]. by left.
  - cbn [semaphore futures].
    assert (Hrel : forall sem e0, release sem = Raise e0 -> e0 = ValueError).
    { intros sem e0. unfold release. destruct (sem_initial sem);
        [destruct (decide _)|]; congruence. }
    destruct (semaphore st) as [sem|];
      destruct (fut_state f) as [|[v|e1]]; cbn [negb];
      unfold semaphore_release;
      try (destruct (release sem) as [e0|sem'] eqn:Hr;
           [intros [= _ <-]; left; by eapply Hrel|]);
      cbn; try discriminate;
      (destruct (is_Exception e1) eqn:He; [discriminate|]);
      intros [= _ <-]; by right.
Qed.

Lemma list_remove_length f l l' :
  list_remove f l = Return l' -> length l = S (length l').
Proof.
  intros (l1 & g & l2 & -> & _ & _ & ->)%list_remove_split.
  rewrite !length_app. cbn. lia.
Qed.

(** X8 (completion order): whatever the store and the completions, the
    objects yielded are, one for one and in order, what the first
    completed futures deliver: nothing is yielded twice, reordered or made
    up; and when the iteration ends without an exception every completed
    future has been yielded. *)
Theorem yields_follow_completion_order completed (times_out : bool) st :
  let '(_, ys, r) := future_results_as_completed completed times_out st in
  Forall2 (fun f y => delivery f = Return y) (take (length ys) completed) ys
  /\ (r = None -> length ys = length completed).
Proof.
  revert st. induction completed as [|f completed IH]; intros st;
    cbn [future_results_as_completed].
  - split; [constructor|done].
  - destruct (loop_body f st) as [st1 [e|y]] eqn:Hbody.
    + split; [constructor|discriminate].
    + specialize (IH st1).
      destruct (future_results_as_completed completed times_out st1)
        as [[st2 ys] r].
      destruct IH as [Hys Hall].
      apply loop_body_yield_inv in Hbody as [Hdel _].
      split.
      * cbn. by constructor.
      * intros Hr. cbn. f_equal. by apply Hall.
Qed.

(** X9 (permits and handles add up): when every completed future was
    yielded, the semaphore has been released once for each of them that
    was not cancelled, and the caller's list is shorter by their number. *)
Theorem permits_match_completions completed (times_out : bool) st
  (sem : Semaphore) :
  semaphore st = Some sem ->
  length (future_results_as_completed completed times_out st).1.2
  = length completed ->
  let st' := (future_results_as_completed completed times_out st).1.1 in
  (exists sem',
      semaphore st' = Some sem' /\
      sem_initial sem' = sem_initial sem /\
      sem_value sem' =
      sem_value sem + length (filter (fun f => cancelled f = false) completed))
  /\ length (futures st') + length completed = length (futures st).
Proof.
  revert st sem. induction completed as [|f completed IH]; intros st sem Hsem;
    cbn [future_results_as_completed].
  - intros _. cbn. split; [|lia]. exists sem. repeat split; [done|lia].
  - destruct (loop_body f st) as [st1 [e|y]] eqn:Hbody; [discriminate|].
    apply loop_body_yield_inv in Hbody as (_ & l' & Hl & ->).
    set (st1 := settled f l' st).
    assert (Hsem1 : semaphore st1 =
                    Some (if cancelled f then sem else sem_incr sem)).
    { subst st1. unfold settled. cbn. rewrite Hsem. by destruct (cancelled f). }
    specialize (IH st1 _ Hsem1).
    destruct (future_results_as_completed completed times_out st1)
      as [[st2 ys] r].
    cbn [fst snd length] in *. intros [= Hlen].
    destruct (IH Hlen) as [(sem' & Hs' & Hi' & Hv') Hfut].
    apply list_remove_length in Hl.
    split.
    + exists sem'. split; [done|]. rewrite filter_cons.
      destruct (cancelled f) eqn:Hc.
      * rewrite decide_False by done. split; [done|lia].
      * rewrite decide_True by done. cbn in *. split; [done|lia].
    + subst st1. cbn in Hfut. lia.
Qed.

(** X10 (a future that is not in the list): when the future handed over
    is not in the caller's list, [futures.remove] raises [ValueError]; the
    iteration ends there with nothing yielded, no permit released and the
    store untouched. *)
Theorem unregistered_future_raises f completed (times_out : bool) st :
  ~ registered f st ->
  future_results_as_completed (f :: completed) times_out st
  = (st, [], Some ValueError).
Proof.
  intros Hreg. cbn [future_results_as_completed].
  unfold loop_body, mbind, py_bind, futures_remove.
  by rewrite (list_remove_missing f (futures st) Hreg).
Qed.

(** X11 (a bounded semaphore without room): for a future that was not
    cancelled, when the bounded semaphore is at its initial value the
    release raises [ValueError] out of the generator; the future has
    already left the caller's list, and its result is not yielded. *)
Theorem full_semaphore_loses_result f completed (times_out : bool) st
  (sem : Semaphore) (initial : nat) :
  registered f st -> cancelled f = false ->
  semaphore st = Some sem -> sem_initial sem = Some initial ->
  initial ≤ sem_value sem ->
  exists l',
    list_remove f (futures st) = Return l' /\
    future_results_as_completed (f :: completed) times_out st
    = ({| futures := l'; semaphore := Some sem |}, [], Some ValueError).
Proof.
  intros Hreg Hc Hsem Hinit Hfull.
  destruct (list_remove_found f _ Hreg) as [l' Hl]. exists l'.
  split; [done|]. cbn [future_results_as_completed].
  unfold loop_body, mbind, py_bind, futures_remove. rewrite Hl.
  cbn [semaphore]. rewrite Hsem, Hc. cbn [negb].
  unfold semaphore_release, release. rewrite Hinit.
  by rewrite decide_True by lia.
Qed.

(** X12 (what can end the iteration): an exception that leaves the
    generator is [TimeoutError] from [as_completed] after every completed
    future was yielded, or a [ValueError] from the list or the semaphore,
    or the fault of a completed task that is no [Exception]; no
    [Exception] raised by a task ever leaves it. *)
Theorem escaping_exceptions completed (times_out : bool) st st'
  (ys : list (pyobject value)) (e : exn) :
  future_results_as_completed completed times_out st = (st', ys, Some e) ->
  (e = TimeoutError /\ times_out = true /\ length ys = length completed) \/
  e = ValueError \/
  (is_Exception e = false /\
   exists f, f ∈ completed /\ fut_state f = FINISHED (Raised e)).
Proof.
  revert st ys. induction completed as [|f completed IH]; intros st ys;
    cbn [future_results_as_completed].
  - destruct times_out; [|discriminate]. intros [= <- <- <-]. by left.
  - destruct (loop_body f st) as [st1 [e0|y]] eqn:Hbody.
    + intros [= <- <- <-]. right.
      apply loop_body_raise_inv in Hbody as [->|[He Hf]]; [by left|].
      right. split; [done|]. exists f. split; [apply list_elem_of_here|done].
    + destruct (future_results_as_completed completed times_out st1)
        as [[st2 ys'] r] eqn:Hrun.
      intros [= <- <- ->].
      destruct (IH _ _ Hrun) as [(-> & Ht & Hlen)|[->|(He & g & Hg & Hgs)]].
      * left. cbn. by rewrite Hlen.
      * right. by left.
      * right. right. split; [done|]. exists g.
        split; [by apply list_elem_of_further|done].
Qed.

(** X13 (only that handle leaves the list): an iteration that yields has
    removed from the caller's list the first future with the identity of
    the one handed over; the futures before and after it stay, in
    order. *)
Theorem only_completed_handle_removed f st st' (y : pyobject value) :
  loop_body f st = (st', Return y) ->
  exists l1 g l2,
    futures st = l1 ++ g :: l2 /\ fut_id g = fut_id f /\
    (fut_id f ∉ fut_id <$> l1) /\ futures st' = l1 ++ l2.
Proof.
  intros (_ & l' & Hl & ->)%loop_body_yield_inv.
  apply list_remove_split in Hl as (l1 & g & l2 & ? & ? & ? & ->).
  by exists l1, g, l2.
Qed.

End DriverExtra.

Lemma permits_match_completions_witness :
  let st := {| futures := [failing; cancelled_handle; returning];
               semaphore := pool 0 |} in
  let completed := [cancelled_handle; returning; failing] in
  let st' := (future_results_as_completed completed false st).1.1 in
  (exists sem',
      semaphore st' = Some sem' /\
      sem_initial sem' = Some 2 /\
      sem_value sem' =
      0 + length (filter (fun f => cancelled f = false) completed))
  /\ length (futures st') + length completed = length (futures st).
Proof.
  apply (permits_match_completions
           [cancelled_handle; returning; failing] false
           {| futures := [failing; cancelled_handle; returning];
              semaphore := pool 0 |}
           {| sem_value := 0; sem_initial := Some 2 |});
    reflexivity.
Defined.

Lemma unregistered_future_raises_witness :
  future_results_as_completed [returning; failing] false
    {| futures := [failing]; semaphore := pool 0 |}
  = ({| futures := [failing]; semaphore := pool 0 |}, [], Some ValueError).
Proof.
  apply (unregistered_future_raises returning [failing] false
           {| futures := [failing]; semaphore := pool 0 |}).
  unfold registered. cbn. intros Hin%list_elem_of_singleton. discriminate.
Defined.

Lemma full_semaphore_loses_result_witness :
  exists l',
    list_remove returning [failing; returning] = Return l' /\
    future_results_as_completed [returning; failing] false
      {| futures := [failing; returning]; semaphore := pool 2 |}
    = ({| futures := l'; semaphore := pool 2 |}, [], Some ValueError).
Proof.
  apply (full_semaphore_loses_result returning [failing] false
           {| futures := [failing; returning]; semaphore := pool 2 |}
           {| sem_value := 2; sem_initial := Some 2 |} 2).
  - unfold registered. cbn. apply list_elem_of_further, list_elem_of_here.
  - reflexivity.
  - reflexivity.
  - reflexivity.
  - cbn. lia.
Defined.

Lemma escaping_exceptions_witness :
  (SystemExit = TimeoutError /\ false = true /\
   length [Obj 7] = length [returning; exiting]) \/
  SystemExit = ValueError \/
  (is_Exception SystemExit = false /\
   exists f, f ∈ [returning; exiting] /\
             fut_state f = FINISHED (Raised SystemExit)).
Proof.
  apply (escaping_exceptions [returning; exiting] false
           {| futures := [exiting; returning]; semaphore := pool 0 |}
           {| futures := []; semaphore := pool 2 |} [Obj 7] SystemExit).
  reflexivity.
Defined.

Lemma only_completed_handle_removed_witness :
  exists l1 g l2,
    [failing; returning; exiting] = l1 ++ g :: l2 /\
    fut_id g = fut_id returning /\
    (fut_id returning ∉ fut_id <$> l1) /\
    [failing; exiting] = l1 ++ l2.
Proof.
  apply (only_completed_handle_removed returning
           {| futures := [failing; returning; exiting]; semaphore := pool 0 |}
           {| futures := [failing; exiting]; semaphore := pool 1 |} (Obj 7)).
  reflexivity.
Defined.

End DriverExtra.

Module PyStrFacts.
Import PyStr.

Lemma contains_app (c : ascii) (a b : string) :
  contains c (a +:+ b) = contains c a || contains c b.
Proof.
  induction a as [|c' a IH]; simpl; [done|].
  by destruct (decide (c' = c)).
Qed.

Lemma replace_removes (old new : ascii) (s : string) :
  old <> new -> contains old (replace old new s) = false.
Proof.
  intros Hne. induction s as [|c s IH]; simpl; [done|].
  destruct (decide (c = old)) as [->|Hc].
  - by rewrite decide_False by done.
  - by rewrite decide_False by done.
Qed.

End PyStrFacts.

(* --------------------------------------------------------------------- *)
(** ** More on the hash helpers                                            *)
(* --------------------------------------------------------------------- *)

Module HashExtra.
Import HashUtils PyStr PyStrFacts.

Lemma split_no_sep (sep : ascii) (s : string) :
  contains sep s = false -> split sep s = [s].
Proof.
  induction s as [|c s IH]; cbn [contains split]; [done|].
  destruct (decide (c = sep)); [discriminate|].
  intros Hs. by rewrite (IH Hs).
Qed.

Lemma split_at_sep (sep : ascii) (a b : string) :
  contains sep a = false ->
  split sep (a +:+ String sep b) = a :: split sep b.
Proof.
  induction a as [|c a IH]; simpl.
  - intros _. by destruct (decide (sep = sep)).
  - destruct (decide (c = sep)); [discriminate|].
    intros Ha. by rewrite (IH Ha).
Qed.

Lemma split1_no_sep (sep : ascii) (s : string) :
  contains sep s = false -> split1 sep s = [s].
Proof.
  induction s as [|c s IH]; cbn [contains split1]; [done|].
  destruct (decide (c = sep)); [discriminate|].
  intros Hs. by rewrite (IH Hs).
Qed.

Lemma split1_at_sep (sep : ascii) (a b : string) :
  contains sep a = false ->
  split1 sep (a +:+ String sep b) = [a; b].
Proof.
  induction a as [|c a IH]; simpl.
  - intros _. by destruct (decide (sep = sep)).
  - destruct (decide (c = sep)); [discriminate|].
    intros Ha. by rewrite (IH Ha).
Qed.

Section HashExtra.
Context {pyval H : Type} `{HashObject H}.
Variable literal_eval : string -> result pyval.
Variable hashlib : string -> option (attr pyval H).
Variable MAXIMUM_CHECKSUM_LENGTH : nat.

(** X14 (no oversized digest gets through): whatever the configuration
    string, the namespace and the exception classes, a hash object that
    the function returns has a digest, of at most
    [MAXIMUM_CHECKSUM_LENGTH] bytes. *)
Theorem returned_digest_fits
  (unsupported too_long : exn) (config_hash_function : string) (h : H) :
  parametrized_hash_function_raising literal_eval hashlib
    MAXIMUM_CHECKSUM_LENGTH unsupported too_long config_hash_function
  = Return h ->
  exists d : list Byte.byte,
    h_digest h = Return d /\ length d ≤ MAXIMUM_CHECKSUM_LENGTH.
Proof.
  unfold parametrized_hash_function_raising.
  destruct (split_config config_hash_function) as [hash_name hash_args].
  destruct (getattr hashlib hash_name) as [e|[|call]]; cbn; try discriminate.
  destruct (match hash_args with
            | Some a => parse_kwargs literal_eval (split "," a) ∅
            | None => Return ∅
            end) as [e|kwargs]; cbn; [discriminate|].
  destruct (call kwargs) as [e|h0]; cbn; [discriminate|].
  destruct (h_digest h0) as [e|d] eqn:Hd; cbn; [discriminate|].
  destruct (decide (MAXIMUM_CHECKSUM_LENGTH < length d)); [discriminate|].
  intros [= <-]. exists d. split; [done|lia].
Qed.

(** X15 (name and arguments): the text before the first comma is the
    algorithm name and the rest, further commas included, the arguments;
    without a comma the whole string is the name and there are no
    arguments. *)
Theorem config_splits_at_first_comma (name args : string) :
  contains "," name = false ->
  split_config (name +:+ "," +:+ args) = (name, Some args) /\
  split_config name = (name, None).
Proof.
  intros Hname. unfold split_config. split.
  - change ("," +:+ args) with (String "," args).
    by rewrite split1_at_sep.
  - by rewrite split1_no_sep.
Qed.

(** X16 (one keyword argument): for [name,k=v] where the name resolves to a
    constructor and [v] is a literal, the constructor is called with the
    dictionary that maps [k] to the value of [v], and the digest length
    then decides between the object and the exception. *)
Theorem single_keyword_argument
  (unsupported too_long : exn) (name k v : string) (x : pyval)
  (call : gmap string pyval -> result H) :
  contains "," name = false ->
  contains "," k = false -> contains "=" k = false ->
  contains "," v = false -> contains "=" v = false ->
  hashlib name = Some (AttrCallable call) ->
  literal_eval v = Return x ->
  parametrized_hash_function_raising literal_eval hashlib
    MAXIMUM_CHECKSUM_LENGTH unsupported too_long
    (name +:+ "," +:+ k +:+ "=" +:+ v)
  = (h ← call {[ k := x ]};
     d ← h_digest h;
     if decide (MAXIMUM_CHECKSUM_LENGTH < length d) then Raise too_long
     else Return h).
Proof.
  intros Hname Hk1 Hk2 Hv1 Hv2 Hattr Hlit.
  unfold parametrized_hash_function_raising, split_config.
  change ("," +:+ k +:+ "=" +:+ v) with (String "," (k +:+ "=" +:+ v)).
  rewrite split1_at_sep by done. cbn [unpack2].
  unfold getattr. rewrite Hattr. cbn [mbind result_bind].
  assert (Hkv : contains "," (k +:+ "=" +:+ v) = false).
  { rewrite contains_app, Hk1. exact Hv1. }
  rewrite split_no_sep by done. cbn [parse_kwargs].
  change ("=" +:+ v) with (String "=" v).
  rewrite split_at_sep by done. rewrite split_no_sep by done.
  cbn [unpack2 mbind result_bind snd fst]. rewrite Hlit.
  cbn [parse_kwargs mbind result_bind]. by rewrite insert_empty.
Qed.

(** X17 (an argument without [=]): when the first argument after the name
    has no [=] in it, unpacking the pair raises [ValueError], which is
    what the function raises, not the configuration error, and the
    constructor is not called. *)
Theorem argument_without_equals
  (unsupported too_long : exn) (name arg rest : string)
  (call : gmap string pyval -> result H) :
  contains "," name = false ->
  contains "," arg = false -> contains "=" arg = false ->
  hashlib name = Some (AttrCallable call) ->
  parametrized_hash_function_raising literal_eval hashlib
    MAXIMUM_CHECKSUM_LENGTH unsupported too_long (name +:+ "," +:+ arg)
  = Raise ValueError /\
  parametrized_hash_function_raising literal_eval hashlib
    MAXIMUM_CHECKSUM_LENGTH unsupported too_long
    (name +:+ "," +:+ arg +:+ "," +:+ rest)
  = Raise ValueError.
Proof.
  intros Hname Ha1 Ha2 Hattr.
  unfold parametrized_hash_function_raising, split_config. split.
  - change ("," +:+ arg) with (String "," arg).
    rewrite split1_at_sep by done. cbn [unpack2].
    unfold getattr. rewrite Hattr. cbn [mbind result_bind].
    rewrite split_no_sep by done. cbn [parse_kwargs].
    rewrite (split_no_sep "=" arg) by done. reflexivity.
  - change ("," +:+ arg +:+ "," +:+ rest)
      with (String "," (arg +:+ String "," rest)).
    rewrite split1_at_sep by done. cbn [unpack2].
    unfold getattr. rewrite Hattr. cbn [mbind result_bind].
    rewrite split_at_sep by done. cbn [parse_kwargs].
    rewrite (split_no_sep "=" arg) by done. reflexivity.
Qed.

(** X18 (digests do not build up): two calls of [data_hexdigest] with the
    same hash object and different data return, each, the hexdigest of
    the object's state updated with that call's data alone: what the first
    call hashed does not enter the second. *)
Theorem digests_do_not_accumulate
  (σ : gmap loc H) (hash_function : loc) (s : H)
  (data1 data2 : list Byte.byte) :
  σ !! hash_function = Some s ->
  let '(σ1, r1) := data_hexdigest hash_function data1 σ in
  let '(_, r2) := data_hexdigest hash_function data2 σ1 in
  r1 = h_hexdigest (h_update s data1) /\
  r2 = h_hexdigest (h_update s data2).
Proof.
  intros Hh.
  rewrite (HashFacts.data_hexdigest_run σ hash_function s data1 Hh).
  set (σ1 := <[fresh (dom σ) := h_update s data1]> _).
  assert (Hh1 : σ1 !! hash_function = Some s).
  { subst σ1. pose proof (HashFacts.fresh_loc_ne σ hash_function s Hh).
    by rewrite !lookup_insert_ne. }
  by rewrite (HashFacts.data_hexdigest_run σ1 hash_function s data2 Hh1).
Qed.

End HashExtra.

Import ToyHashlib.

Lemma returned_digest_fits_witness :
  exists d : list Byte.byte,
    h_digest (mkToy 32 []) = Return d /\ length d ≤ 64.
Proof.
  apply (returned_digest_fits toy_literal_eval toy_hashlib 64
           ConfigurationError ConfigurationError "blake2b,digest_size=32"
           (mkToy 32 [])).
  vm_compute. reflexivity.
Defined.

Lemma config_splits_at_first_comma_witness :
  split_config ("blake2b" +:+ "," +:+ "digest_size=32,salt=1")
  = ("blake2b", Some "digest_size=32,salt=1") /\
  split_config "blake2b" = ("blake2b", None).
Proof.
  apply (config_splits_at_first_comma "blake2b" "digest_size=32,salt=1").
  reflexivity.
Defined.

Lemma single_keyword_argument_witness :
  parametrized_hash_function_raising toy_literal_eval toy_hashlib 64
    ConfigurationError ConfigurationError
    ("blake2b" +:+ "," +:+ "digest_size" +:+ "=" +:+ "32")
  = (h ← blake2b_call {[ "digest_size" := 32%Z ]};
     d ← h_digest h;
     if decide (64 < length d) then Raise ConfigurationError else Return h).
Proof.
  apply (single_keyword_argument toy_literal_eval toy_hashlib 64
           ConfigurationError ConfigurationError
           "blake2b" "digest_size" "32" 32%Z blake2b_call);
    reflexivity.
Defined.

Lemma argument_without_equals_witness :
  parametrized_hash_function_raising toy_literal_eval toy_hashlib 64
    ConfigurationError ConfigurationError
    ("blake2b" +:+ "," +:+ "digest_size")
  = Raise ValueError /\
  parametrized_hash_function_raising toy_literal_eval toy_hashlib 64
    ConfigurationError ConfigurationError
    ("blake2b" +:+ "," +:+ "digest_size" +:+ "," +:+ "salt=1")
  = Raise ValueError.
Proof.
  apply (argument_without_equals toy_literal_eval toy_hashlib 64
           ConfigurationError ConfigurationError
           "blake2b" "digest_size" "salt=1" blake2b_call);
    reflexivity.
Defined.

Lemma digests_do_not_accumulate_witness :
  let σ : gmap loc toy := {[ 0 := mkToy 4 [Byte.x61] ]} in
  let '(σ1, r1) := data_hexdigest 0 [Byte.x62] σ in
  let '(_, r2) := data_hexdigest 0 [Byte.x63] σ1 in
  r1 = h_hexdigest (h_update (mkToy 4 [Byte.x61]) [Byte.x62]) /\
  r2 = h_hexdigest (h_update (mkToy 4 [Byte.x61]) [Byte.x63]).
Proof.
  apply (digests_do_not_accumulate
           ({[ 0 := mkToy 4 [Byte.x61] ]} : gmap loc toy) 0
           (mkToy 4 [Byte.x61]) [Byte.x62] [Byte.x63]).
  reflexivity.
Defined.

End HashExtra.

(* --------------------------------------------------------------------- *)
(** ** hints_from_rbd_diff                                                 *)
(* --------------------------------------------------------------------- *)

Module RbdDiffFacts.
Import RbdDiff RbdDiffSamples.

Lemma hint_of_dict (items : list (string * json)) (o l e : json) :
  dict_get "offset" items = Some o ->
  dict_get "length" items = Some l ->
  dict_get "exists" items = Some e ->
  hint (JObj items) = Return (o, l, exists_flag e).
Proof.
  intros Ho Hl He. unfold hint, subscript, exists_flag.
  rewrite Ho, Hl, He. cbn.
  destruct (eq_str e "false"); cbn; [done|by destruct (truth e)].
Qed.

Lemma hint_missing_key (items : list (string * json)) :
  dict_get "offset" items = None \/ dict_get "length" items = None \/
  dict_get "exists" items = None ->
  hint (JObj items) = Raise KeyError.
Proof.
  unfold hint, subscript. intros [Ho|[Hl|He]].
  - by rewrite Ho.
  - rewrite Hl. by destruct (dict_get "offset" items).
  - rewrite He. by destruct (dict_get "offset" items),
      (dict_get "length" items).
Qed.

Lemma hints_app (ls1 ls2 : list json) :
  hints (ls1 ++ ls2) =
  hs1 ← hints ls1; hs2 ← hints ls2; Return (hs1 ++ hs2).
Proof.
  induction ls1 as [|l ls1 IH]; cbn [app hints].
  - cbn. by destruct (hints ls2).
  - destruct (hint l) as [e|h]; cbn; [done|].
    rewrite IH. destruct (hints ls1) as [e|hs1]; cbn; [done|].
    by destruct (hints ls2).
Qed.

Section RbdDiffFacts.
Variable json_loads : string -> result json.

(** X19 (one hint per extent, in order): when the text is a JSON array of
    objects that all have the keys [offset], [length] and [exists], the
    result has one tuple per object, in the order of the array, with the
    object's offset and length, and a flag that is false exactly when the
    value under [exists] is the string [false] or is falsy. *)
Theorem one_hint_per_extent (rbd_diff : string) (ls : list json) :
  json_loads rbd_diff = Return (JArr ls) ->
  Forall (fun l => exists items o len e,
              l = JObj items /\ dict_get "offset" items = Some o /\
              dict_get "length" items = Some len /\
              dict_get "exists" items = Some e) ls ->
  exists hs,
    hints_from_rbd_diff json_loads rbd_diff = Return hs /\
    Forall2 (fun l h =>
               subscript l "offset" = Return h.1.1 /\
               subscript l "length" = Return h.1.2 /\
               exists e, subscript l "exists" = Return e /\
                         h.2 = negb (eq_str e "false" || negb (truth e)))
      ls hs.
Proof.
  intros Hload Hls. unfold hints_from_rbd_diff. rewrite Hload.
  cbn [mbind result_bind iterate]. clear Hload.
  induction Hls as [|l ls (items & o & len & e & -> & Ho & Hlen & He) _ IH].
  - exists []. split; [done|constructor].
  - destruct IH as (hs & Hhs & Hall).
    exists ((o, len, exists_flag e) :: hs). split.
    + cbn [hints]. rewrite (hint_of_dict items o len e) by done.
      cbn. by rewrite Hhs.
    + constructor; [|done]. unfold subscript. rewrite Ho, Hlen, He.
      repeat split. by exists e.
Qed.

(** X20 (what counts as existing): for an object with the three keys, the
    flag is false for the string [false], the empty string, JSON [false],
    [null] and zero, and true for every other string (so for [true], but
    also for [False] and [0] as text), for JSON [true] and for a number
    that is not zero. *)
Theorem exists_flag_by_value (items : list (string * json)) (o l e : json) :
  dict_get "offset" items = Some o ->
  dict_get "length" items = Some l ->
  dict_get "exists" items = Some e ->
  exists flag,
    hint (JObj items) = Return (o, l, flag) /\
    match e with
    | JStr s => flag = true <-> s <> "false" /\ s <> EmptyString
    | JBool b => flag = b
    | JNull => flag = false
    | JInt z => flag = true <-> z <> 0%Z
    | JFloat q => flag = true <-> ~ (q == 0)%Q
    | JNonFinite => flag = true
    | JArr l' => flag = true <-> l' <> []
    | JObj items' => flag = true <-> items' <> []
    end.
Proof.
  intros Ho Hl He. exists (exists_flag e).
  split; [by apply hint_of_dict|].
  unfold exists_flag. destruct e as [|b|z|q| |s|l'|items']; cbn.
  - done.
  - by destruct b.
  - rewrite negb_involutive, negb_true_iff. apply Z.eqb_neq.
  - rewrite negb_involutive, negb_true_iff. split.
    + intros Hq E. apply Qeq_bool_iff in E. congruence.
    + intros Hq. destruct (Qeq_bool q 0) eqn:E; [|done].
      apply Qeq_bool_iff in E. contradiction.
  - done.
  - rewrite negb_involutive.
    destruct (bool_decide_reflect (s = "false")) as [->|Hf]; cbn.
    + split; [discriminate|]. intros [? _]. done.
    + destruct (bool_decide_reflect (s = EmptyString)) as [->|Hn]; cbn.
      * split; [discriminate|]. intros [_ ?]. done.
      * done.
  - rewrite negb_involutive.
    destruct (bool_decide_reflect (l' = [])) as [->|Hn]; cbn; [|done].
    split; [discriminate|done].
  - rewrite negb_involutive.
    destruct (bool_decide_reflect (items' = [])) as [->|Hn]; cbn; [|done].
    split; [discriminate|done].
Qed.

(** X21 (a key is missing): when an object of the array lacks one of the
    three keys, and those before it are fine, the call raises [KeyError]:
    no hint is returned, not even for the objects that were fine. *)
Theorem missing_key_raises (rbd_diff : string)
  (good rest : list json) (items : list (string * json))
  (hs : list (json * json * bool)) :
  json_loads rbd_diff = Return (JArr (good ++ JObj items :: rest)) ->
  hints good = Return hs ->
  dict_get "offset" items = None \/ dict_get "length" items = None \/
  dict_get "exists" items = None ->
  hints_from_rbd_diff json_loads rbd_diff = Raise KeyError.
Proof.
  intros Hload Hgood Hmiss. unfold hints_from_rbd_diff. rewrite Hload.
  cbn [mbind result_bind iterate]. rewrite hints_app, Hgood.
  cbn [mbind result_bind hints]. by rewrite (hint_missing_key items Hmiss).
Qed.

(** X22 (a text that is not an array): a JSON object with at least one
    key and a string that is not empty are iterated, over keys and
    characters, and the first subscript raises [TypeError]; [null], a
    boolean or a number cannot be iterated, which raises [TypeError] too;
    an empty array, an empty object and an empty string give no hints. *)
Theorem not_an_array (rbd_diff : string) (data : json) :
  json_loads rbd_diff = Return data ->
  hints_from_rbd_diff json_loads rbd_diff =
  match data with
  | JArr l => hints l
  | JObj [] | JStr EmptyString => Return []
  | _ => Raise TypeError
  end.
Proof.
  intros Hload. unfold hints_from_rbd_diff. rewrite Hload.
  cbn [mbind result_bind].
  destruct data as [|b|z|q| |s|l|items]; try done.
  - by destruct s.
  - by destruct items as [|[k v] items].
Qed.

End RbdDiffFacts.

Lemma one_hint_per_extent_witness :
  exists hs,
    hints_from_rbd_diff sample_loads "two extents" = Return hs /\
    Forall2 (fun l h =>
               subscript l "offset" = Return h.1.1 /\
               subscript l "length" = Return h.1.2 /\
               exists e, subscript l "exists" = Return e /\
                         h.2 = negb (eq_str e "false" || negb (truth e)))
      [extent 0 4194304 (JStr "true"); extent 4194304 4194304 (JStr "false")]
      hs.
Proof.
  apply (one_hint_per_extent sample_loads "two extents").
  - reflexivity.
  - repeat constructor; do 4 eexists; repeat split; reflexivity.
Defined.

Lemma exists_flag_by_value_witness :
  exists flag,
    hint (extent 0 512 (JStr "False")) = Return (JInt 0, JInt 512, flag) /\
    (flag = true <-> "False" <> "false" /\ "False" <> EmptyString).
Proof.
  apply (exists_flag_by_value
           [("offset", JInt 0); ("length", JInt 512);
            ("exists", JStr "False")]
           (JInt 0) (JInt 512) (JStr "False")); reflexivity.
Defined.

Lemma missing_key_raises_witness :
  hints_from_rbd_diff sample_loads "no length" = Raise KeyError.
Proof.
  apply (missing_key_raises sample_loads "no length"
           [extent 0 512 (JBool true)] [extent 1024 512 (JBool true)]
           [("offset", JInt 512); ("exists", JBool true)]
           [(JInt 0, JInt 512, true)]).
  - reflexivity.
  - reflexivity.
  - right. left. reflexivity.
Defined.

Lemma not_an_array_witness :
  hints_from_rbd_diff sample_loads "an object" = Raise TypeError.
Proof.
  apply (not_an_array sample_loads "an object" (extent 0 512 (JBool true))).
  reflexivity.
Defined.

End RbdDiffFacts.

(* --------------------------------------------------------------------- *)
(** ** notify                                                              *)
(* --------------------------------------------------------------------- *)

Module NotifyFacts.
Import PyStr PyStrFacts Notify.

(** X23 (one line in the process list): when neither the process name nor
    the title in place has a line break in it, the title after [notify]
    has none either, whatever the message: its line breaks are set as
    spaces. *)
Theorem title_stays_on_one_line (process_name msg old_msg title : string) :
  contains newline process_name = false ->
  contains newline title = false ->
  contains newline (notify process_name msg old_msg title) = false.
Proof.
  intros Hname Htitle. unfold notify.
  destruct (negb (bool_decide (old_msg = _))); [|exact Htitle].
  destruct (negb (bool_decide (msg = EmptyString))); [|exact Hname].
  rewrite !contains_app, Hname, replace_removes by done.
  reflexivity.
Qed.

Lemma title_stays_on_one_line_witness :
  contains newline
    (notify "benji" ("backup" +:+ String newline "block 7") "" "benji")
  = false.
Proof.
  apply (title_stays_on_one_line "benji"
           ("backup" +:+ String newline "block 7") "" "benji");
    reflexivity.
Defined.

End NotifyFacts.

(* --------------------------------------------------------------------- *)
(** ** PrettyPrint.bytes                                                   *)
(* --------------------------------------------------------------------- *)

Module PrettyPrintFacts.
Import PrettyPrint PrettyPrintSamples.
Local Open Scope Q_scope.






Section BytesFacts.
Variable fmt_3_1f : Q -> string.
Variable fmt_1f : Q -> string.





End BytesFacts.



End PrettyPrintFacts.
